(** * groupcache: consistent-hash ring and LRU cache

    A shallow embedding of the two Go packages of the repository,

    - [consistenthash] (type [Map] with [New], [IsEmpty], [Add], [Get]) and
    - [lru] (type [Cache] with [New], [Add], [Get], [Remove],
      [RemoveOldest], [Len], [Clear]),

    followed by the properties of the specification proved about them.

    Conventions.  A Go [int] is a [Z] (64-bit platform; no value computed
    here leaves the range).  A Go [string] is a [string] (a byte sequence).
    A Go [map] is a [gmap].  A run-time panic (index out of range, nil
    dereference) is the result [None] of a function into [option]. *)

From Stdlib Require Import ZArith String List Lia DecimalString Sorted Permutation.
From stdpp Require Import base option list gmap sets strings sorting.

Local Open Scope Z_scope.
Set Warnings "-clear-no-such-hyp".

(** ** Package sort (Go standard library) *)

Module sort.

(** [sort.Search(n, f)]: the loop
    [i, j := 0, n; for i < j { h := int(uint(i+j) >> 1);
       if !f(h) { i = h + 1 } else { j = h } }; return i].
    The interval [j - i] shrinks at every turn, so [fuel] turns are
    enough whenever [j - i <= fuel]. *)
Fixpoint Search_loop (fuel : nat) (f : Z → bool) (i j : Z) : Z :=
  match fuel with
  | O => i
  | S fuel' =>
      if i <? j then
        let h := Z.shiftr (i + j) 1 in
        if negb (f h) then Search_loop fuel' f (h + 1) j
        else Search_loop fuel' f i h
      else i
  end.

Definition Search (n : Z) (f : Z → bool) : Z :=
  Search_loop (Z.to_nat n) f 0 n.

(** [sort.Ints(a)]: sorts a slice of ints in increasing order. *)
Definition Ints (a : list Z) : list Z := merge_sort Z.le a.

End sort.

(** ** Package strconv (Go standard library) *)

Module strconv.

(** [strconv.Itoa(i)]: the decimal representation of [i]. *)
Definition Itoa (i : Z) : string := NilZero.string_of_int (Z.to_int i).

End strconv.

(** ** Package consistenthash *)

Module consistenthash.

(** [type Hash func(data []byte) uint32].  The result is used only
    after the conversion [int(...)], which keeps its value. *)
Definition Hash : Type := string → Z.

(** [type Map struct { hash; replicas; keys; hashMap }] *)
Record Map : Type := mkMap {
  hash : Hash;
  replicas : Z;
  keys : list Z;
  hashMap : gmap Z string;
}.

Section with_default_hash.

(** [crc32.ChecksumIEEE], the default hash function. *)
Variable ChecksumIEEE : Hash.

(** [func New(replicas int, fn Hash) *Map]; a nil [fn] is [None]. *)
Definition New (replicas : Z) (fn : option Hash) : Map :=
  {| hash := match fn with Some h => h | None => ChecksumIEEE end;
     replicas := replicas;
     keys := [];
     hashMap := ∅ |}.

End with_default_hash.

(** [func (m *Map) IsEmpty() bool] *)
Definition IsEmpty (m : Map) : bool :=
  bool_decide (Z.of_nat (length (keys m)) = 0).

(** One turn of the inner loop of [Add], for replica index [i]. *)
Definition Add_replica (key : string) (m : Map) (i : nat) : Map :=
  let hash := hash m (strconv.Itoa (Z.of_nat i) +:+ key) in
  {| hash := consistenthash.hash m;
     replicas := replicas m;
     keys := keys m ++ [hash];
     hashMap := <[hash := key]> (hashMap m) |}.

(** The inner loop [for i := 0; i < m.replicas; i++ { ... }]. *)
Definition Add_key (m : Map) (key : string) : Map :=
  fold_left (Add_replica key) (seq 0 (Z.to_nat (replicas m))) m.

(** [func (m *Map) Add(keys ...string)] *)
Definition Add (nodes : list string) (m : Map) : Map :=
  let m' := fold_left Add_key nodes m in
  {| hash := hash m';
     replicas := replicas m';
     keys := sort.Ints (keys m');
     hashMap := hashMap m' |}.

(** [func (m *Map) Get(key string) string].  [m.keys[idx]] panics
    when [idx] is out of range; a key missing from [m.hashMap] reads
    as the empty string. *)
Definition Get (m : Map) (key : string) : option string :=
  if IsEmpty m then Some ""%string
  else
    let hash := hash m key in
    let n := Z.of_nat (length (keys m)) in
    let idx :=
      sort.Search n (λ i, bool_decide (hash ≤ default 0 (keys m !! Z.to_nat i))) in
    let idx := if bool_decide (idx = n) then 0 else idx in
    if bool_decide (0 ≤ idx < n) then
      k ← keys m !! Z.to_nat idx;
      Some (default ""%string (hashMap m !! k))
    else None.

(** The (position, node) pairs one call [Add(nodes...)] generates, in
    the order the two loops generate them. *)
Definition positions (m : Map) (nodes : list string) : list (Z * string) :=
  flat_map (λ node,
    map (λ i : nat, (hash m (strconv.Itoa (Z.of_nat i) +:+ node), node))
        (seq 0 (Z.to_nat (replicas m)))) nodes.

(** Writing the pairs [ps] into a position table one after the other. *)
Definition write_all (ps : list (Z * string)) (hm : gmap Z string) : gmap Z string :=
  fold_left (λ hm p, <[p.1 := p.2]> hm) ps hm.

(** The rings a program can build: [New], then calls of [Add]. *)
Inductive reachable (ChecksumIEEE : Hash) : Map → Prop :=
| reachable_New replicas fn : reachable ChecksumIEEE (New ChecksumIEEE replicas fn)
| reachable_Add nodes m :
    reachable ChecksumIEEE m → reachable ChecksumIEEE (Add nodes m).

(** The ring after the calls [Add(ns1...); Add(ns2...); ...], one per
    list of [calls]. *)
Definition Adds (calls : list (list string)) (m : Map) : Map :=
  fold_left (λ m nodes, Add nodes m) calls m.

(** [p] is the position of [l] that serves the hash [h]: the smallest
    position that is at least [h], or the smallest position of all when
    every position is below [h]. *)
Definition serves (h : Z) (l : list Z) (p : Z) : Prop :=
  p ∈ l
  ∧ ((h ≤ p ∧ ∀ q, q ∈ l → h ≤ q → p ≤ q)
     ∨ ((∀ q, q ∈ l → q < h) ∧ ∀ q, q ∈ l → p ≤ q)).

End consistenthash.

(** ** Package container/list (Go standard library)

    A [*list.Element] is an address; the element's [Value] lives in a
    heap of elements.  A [*list.List] is the sequence of its elements,
    front to back; [e.list == l] reads [e ∈ l]. *)

Module container_list.

Definition Element : Type := positive.
Definition List : Type := list Element.

(** [list.New()] *)
Definition New : List := [].

(** [l.Len()] *)
Definition Len (l : List) : Z := Z.of_nat (length l).

(** [l.Back()]: the last element, or nil for an empty list. *)
Definition Back (l : List) : option Element := last l.

(** [l.PushFront(v)]: allocates an element holding [v] and links it
    in front of [l]. *)
Definition PushFront {A} (v : A) (h : gmap Element A) (l : List)
  : Element * gmap Element A * List :=
  let e := fresh (dom h) in (e, <[e := v]> h, e :: l).

(** [l.MoveToFront(e)]: nothing happens if [e] is not an element of
    [l] (or is already its front). *)
Definition MoveToFront (e : Element) (l : List) : List :=
  if decide (e ∈ l) then e :: filter (λ x, x ≠ e) l else l.

(** [l.Remove(e)]: unlinks [e] if it is an element of [l]. *)
Definition Remove (e : Element) (l : List) : List :=
  filter (λ x, x ≠ e) l.

End container_list.

(** ** Package lru *)

Module lru.
Import container_list.

Section cache.

(** [type Key interface{}]: keys are compared with [==] and used as map
    keys.  Values are arbitrary. *)
Context {K : Type} `{Countable K} {V World : Type}.

(** [type entry struct { key Key; value interface{} }] *)
Record entry : Type := mkEntry { key : K; value : V }.

(** [OnEvicted func(key Key, value interface{})].  The callback acts on
    a [World] of its own.  Being a closure it may also read the cache it
    belongs to: its third argument is the recency order of the cache at
    the time of the call.  It does not modify the cache. *)
Definition Callback : Type := K → V → list entry → World → World.

(** [type Cache struct { MaxEntries; OnEvicted; ll; cache }]; a nil
    [OnEvicted], [ll] or [cache] is [None]. *)
Record Cache : Type := mkCache {
  MaxEntries : Z;
  OnEvicted : option Callback;
  ll : option List;
  cache : option (gmap K Element);
}.

(** The memory a method of [*Cache] runs in: the receiver [c], the list
    elements allocated so far, each with the [entry] its [Value] points
    to, and the world of the callback. *)
Record state : Type := mkState {
  c : Cache;
  heap : gmap Element entry;
  world : World;
}.

(** [func New(maxEntries int) *Cache] *)
Definition New (maxEntries : Z) : Cache :=
  {| MaxEntries := maxEntries;
     OnEvicted := None;
     ll := Some container_list.New;
     cache := Some ∅ |}.

(** A [Cache] not made by [New]: the composite literal
    [Cache{MaxEntries: n, OnEvicted: f}], which is the zero value
    [Cache{}] for [n = 0] and a nil [f]. *)
Definition zero (maxEntries : Z) (f : option Callback) : Cache :=
  {| MaxEntries := maxEntries; OnEvicted := f; ll := None; cache := None |}.

(** The assignment [c.OnEvicted = f] to the exported field. *)
Definition set_OnEvicted (f : option Callback) (c : Cache) : Cache :=
  {| MaxEntries := MaxEntries c; OnEvicted := f; ll := ll c; cache := cache c |}.

(** The entries of the elements of a list, front to back. *)
Definition entries (h : gmap Element entry) (l : List) : list entry :=
  omap (λ e, h !! e) l.

(** The recency order of a cache (empty for a nil list). *)
Definition order (σ : state) : list entry :=
  entries (heap σ) (default [] (ll (c σ))).

(** [if c.OnEvicted != nil { c.OnEvicted(kv.key, kv.value) }] *)
Definition evicted (kv : entry) (σ : state) : state :=
  match OnEvicted (c σ) with
  | Some f => {| c := c σ; heap := heap σ;
                 world := f (key kv) (value kv) (order σ) (world σ) |}
  | None => σ
  end.

(** The assignment [kv.value = v] to a field of an [entry]. *)
Definition set_value (kv : entry) (v : V) : entry :=
  {| key := key kv; value := v |}.

(** The methods.  A method call [c.ll.M(...)] on a nil [c.ll] is taken
    to panic, whatever [M] is; the invariant [wf] below says that
    [c.ll] is nil only together with [c.cache], and then no method gets
    as far as calling one.  An element is always allocated, so reading
    its entry from the heap cannot fail either; the model has a [None]
    for it all the same. *)

(** [func (c *Cache) removeElement(e *list.Element)] *)
Definition removeElement (e : Element) (σ : state) : option state :=
  l ← ll (c σ);
  kv ← heap σ !! e;
  Some (evicted kv
          {| c := {| MaxEntries := MaxEntries (c σ);
                     OnEvicted := OnEvicted (c σ);
                     ll := Some (container_list.Remove e l);
                     cache := delete (key kv) <$> cache (c σ) |};
             heap := heap σ;
             world := world σ |}).

(** [func (c *Cache) RemoveOldest()] *)
Definition RemoveOldest (σ : state) : option state :=
  match cache (c σ) with
  | None => Some σ
  | Some _ =>
      l ← ll (c σ);
      match Back l with
      | Some ele => removeElement ele σ
      | None => Some σ
      end
  end.

(** [func (c *Cache) Remove(key Key)] *)
Definition Remove (key : K) (σ : state) : option state :=
  match cache (c σ) with
  | None => Some σ
  | Some m =>
      match m !! key with
      | Some ele => removeElement ele σ
      | None => Some σ
      end
  end.

(** [func (c *Cache) Add(key Key, value interface{})] *)
Definition Add (key : K) (value : V) (σ : state) : option state :=
  let c0 :=
    match cache (c σ) with
    | None => {| MaxEntries := MaxEntries (c σ);
                 OnEvicted := OnEvicted (c σ);
                 ll := Some container_list.New;
                 cache := Some ∅ |}
    | Some _ => c σ
    end in
  m ← cache c0;
  match m !! key with
  | Some ee =>
      l ← ll c0;
      kv ← heap σ !! ee;
      Some {| c := {| MaxEntries := MaxEntries c0;
                      OnEvicted := OnEvicted c0;
                      ll := Some (MoveToFront ee l);
                      cache := Some m |};
              heap := <[ee := set_value kv value]> (heap σ);
              world := world σ |}
  | None =>
      l ← ll c0;
      let '(ele, h, l') := PushFront {| key := key; value := value |} (heap σ) l in
      let σ' := {| c := {| MaxEntries := MaxEntries c0;
                           OnEvicted := OnEvicted c0;
                           ll := Some l';
                           cache := Some (<[key := ele]> m) |};
                   heap := h;
                   world := world σ |} in
      if bool_decide (MaxEntries c0 ≠ 0) && bool_decide (Len l' > MaxEntries c0)
      then RemoveOldest σ'
      else Some σ'
  end.

(** [func (c *Cache) Get(key Key) (value interface{}, ok bool)]; the nil
    [value] of a miss is [None]. *)
Definition Get (key : K) (σ : state) : option (option V * bool * state) :=
  match cache (c σ) with
  | None => Some (None, false, σ)
  | Some m =>
      match m !! key with
      | Some ele =>
          l ← ll (c σ);
          kv ← heap σ !! ele;
          Some (Some (value kv), true,
                {| c := {| MaxEntries := MaxEntries (c σ);
                           OnEvicted := OnEvicted (c σ);
                           ll := Some (MoveToFront ele l);
                           cache := Some m |};
                   heap := heap σ;
                   world := world σ |})
      | None => Some (None, false, σ)
      end
  end.

(** [func (c *Cache) Len() int] *)
Definition Len (σ : state) : option Z :=
  match cache (c σ) with
  | None => Some 0
  | Some _ => l ← ll (c σ); Some (container_list.Len l)
  end.

(** The loop [for _, e := range c.cache { kv := entry of e;
    c.OnEvicted(kv.key, kv.value) }] over the map entries in the order
    [es] the iteration happens to take. *)
Fixpoint Clear_loop (es : list (K * Element)) (σ : state) : option state :=
  match es with
  | [] => Some σ
  | (_, e) :: es' => kv ← heap σ !! e; Clear_loop es' (evicted kv σ)
  end.

(** [func (c *Cache) Clear()].  Go leaves the iteration order of a map
    open: [range m] is the order this call iterates [m] in (a nil map
    has no entries). *)
Definition Clear (range : gmap K Element → list (K * Element)) (σ : state)
  : option state :=
  σ' ← match OnEvicted (c σ) with
       | Some _ => Clear_loop (range (default ∅ (cache (c σ)))) σ
       | None => Some σ
       end;
  Some {| c := {| MaxEntries := MaxEntries (c σ');
                  OnEvicted := OnEvicted (c σ');
                  ll := None;
                  cache := None |};
          heap := heap σ';
          world := world σ' |}.

(** *** Sequences of calls *)

Inductive call : Type :=
| CallAdd (key : K) (value : V)
| CallGet (key : K)
| CallRemove (key : K)
| CallRemoveOldest
| CallLen
| CallClear (range : gmap K Element → list (K * Element))
| SetOnEvicted (f : option Callback).

Definition exec (o : call) (σ : state) : option state :=
  match o with
  | CallAdd k v => Add k v σ
  | CallGet k => r ← Get k σ; Some r.2
  | CallRemove k => Remove k σ
  | CallRemoveOldest => RemoveOldest σ
  | CallLen => _ ← Len σ; Some σ
  | CallClear range => Clear range σ
  | SetOnEvicted f =>
      Some {| c := set_OnEvicted f (c σ); heap := heap σ; world := world σ |}
  end.

Fixpoint run (os : list call) (σ : state) : option state :=
  match os with
  | [] => Some σ
  | o :: os' => σ' ← exec o σ; run os' σ'
  end.

(** A call of [Clear] iterates over the entries of the map, each once. *)
Definition fair (o : call) : Prop :=
  match o with
  | CallClear range => ∀ m, range m ≡ₚ map_to_list m
  | _ => True
  end.

(** *** Views of a state *)

(** The key index (empty for a nil map). *)
Definition index (σ : state) : gmap K Element := default ∅ (cache (c σ)).

(** The keys of the recency order, front to back. *)
Definition order_keys (σ : state) : list K := key <$> order σ.

(** The list [l] and the map [m] describe the same entries in the heap
    [h]: no element is linked twice; the map sends the key of every
    linked element to that element, and every key of the map to a
    linked element carrying that key. *)
Definition rep (h : gmap Element entry) (l : List) (m : gmap K Element) : Prop :=
  NoDup l
  ∧ (∀ e, e ∈ l → ∃ kv, h !! e = Some kv ∧ m !! key kv = Some e)
  ∧ (∀ k e, m !! k = Some e → e ∈ l ∧ ∃ kv, h !! e = Some kv ∧ key kv = k).

(** The representation invariant: list and map are nil together, and
    describe the same entries when they are not. *)
Definition wf (σ : state) : Prop :=
  match ll (c σ), cache (c σ) with
  | None, None => True
  | Some l, Some m => rep (heap σ) l m
  | _, _ => False
  end.

(** The capacity bound: a cache of positive capacity holds no more
    entries than its capacity. *)
Definition bounded (σ : state) : Prop :=
  0 < MaxEntries (c σ) → Z.of_nat (length (order σ)) ≤ MaxEntries (c σ).

(** The calls [Add(k1, v1); ...; Add(kn, vn)]. *)
Definition adds (kvs : list (K * V)) : list call :=
  (λ p, CallAdd p.1 p.2) <$> kvs.

(** The entry [Add(k, v)] makes. *)
Definition entry_of (p : K * V) : entry := {| key := p.1; value := p.2 |}.

(** The capacity and the callback of [σ'] are those of [σ]. *)
Definition same_config (σ σ' : state) : Prop :=
  MaxEntries (c σ') = MaxEntries (c σ) ∧ OnEvicted (c σ') = OnEvicted (c σ).

(** The callback has been called once for each entry of [es], in the
    order of [es], each time seeing the recency order [snap]. *)
Definition called (f : option Callback) (snap : list entry) (es : list entry)
    (w : World) : World :=
  match f with
  | Some g => fold_left (λ w kv, g (key kv) (value kv) snap w) es w
  | None => w
  end.

(** [σ'] is [σ] after the entry [kv] has left the cache: the entry is
    detached from the recency order and from the key index, and then
    the callback, if there is one, is called once with the key and the
    value of [kv]; it sees the cache without the entry.  Nothing else
    changes. *)
Definition removed (kv : entry) (σ σ' : state) : Prop :=
  same_config σ σ'
  ∧ heap σ' = heap σ
  ∧ order σ' = filter (λ x, key x ≠ key kv) (order σ)
  ∧ index σ' = delete (key kv) (index σ)
  ∧ world σ' = called (OnEvicted (c σ)) (order σ') [kv] (world σ).

(** [σ'] is [σ] after the entry [kv] has been moved to the front of the
    recency order; no callback is called. *)
Definition touched (kv : entry) (σ σ' : state) : Prop :=
  same_config σ σ'
  ∧ order σ' = kv :: filter (λ x, key x ≠ key kv) (order σ)
  ∧ index σ' = index σ
  ∧ world σ' = world σ.

(** [σ'] is [σ] after a new element [e] holding [kv] has been linked at
    the front of the recency order and recorded in the key index; no
    callback is called. *)
Definition inserted (e : Element) (kv : entry) (σ σ' : state) : Prop :=
  same_config σ σ'
  ∧ heap σ !! e = None
  ∧ heap σ' = <[e := kv]> (heap σ)
  ∧ order σ' = kv :: order σ
  ∧ index σ' = <[key kv := e]> (index σ)
  ∧ world σ' = world σ.

(** *** The cache as a list of entries *)

(** The entry of the key [k] in a recency order, if there is one. *)
Definition find (k : K) (es : list entry) : option entry :=
  head (filter (λ x, key x = k) es).

(** What a call does to the recency order [es] of a cache of capacity
    [n], read off the methods: [Add] and [Get] move the entry of their
    key to the front, [Add] drops the last entry when the capacity is
    not 0 and is exceeded, [Remove] drops the entry of its key,
    [RemoveOldest] the last entry, [Clear] all entries. *)
Definition model (n : Z) (o : call) (es : list entry) : list entry :=
  match o with
  | CallAdd k v =>
      match find k es with
      | Some _ => {| key := k; value := v |} :: filter (λ x, key x ≠ k) es
      | None =>
          let es' := {| key := k; value := v |} :: es in
          if bool_decide (n ≠ 0) && bool_decide (Z.of_nat (length es') > n)
          then removelast es' else es'
      end
  | CallGet k =>
      match find k es with
      | Some kv => kv :: filter (λ x, key x ≠ k) es
      | None => es
      end
  | CallRemove k => filter (λ x, key x ≠ k) es
  | CallRemoveOldest => removelast es
  | CallLen => es
  | CallClear _ => []
  | SetOnEvicted _ => es
  end.

(** The same for a sequence of calls. *)
Definition models (n : Z) (os : list call) (es : list entry) : list entry :=
  fold_left (λ es o, model n o es) os es.

(** What [Get k] returns on a cache with recency order [es]. *)
Definition lookup_model (k : K) (es : list entry) : option V * bool :=
  match find k es with
  | Some kv => (Some (value kv), true)
  | None => (None, false)
  end.

(** The callback does not look at the cache. *)
Definition blind (f : option Callback) : Prop :=
  ∀ g, f = Some g → ∀ k v snap snap' w, g k v snap w = g k v snap' w.

(** The entries of [es] whose key has no entry in [es']. *)
Definition departed (es es' : list entry) : list entry :=
  filter (λ x, key x ∉ key <$> es') es.

End cache.

Arguments entry : clear implicits.
Arguments Callback : clear implicits.
Arguments Cache K {_ _} V World.
Arguments state K {_ _} V World.
Arguments call K {_ _} V World.

End lru.

(** ** Example values *)

Module examples.

(** The test hash of the specification: a digit string hashes to the
    number it spells. *)
Definition atoi : consistenthash.Hash :=
  λ s, match NilZero.int_of_string s with Some i => Z.of_int i | None => 0 end.

(** A ring with one replica per node and nodes at positions 2, 4, 6. *)
Definition ring246 : consistenthash.Map :=
  consistenthash.Add ["6"; "4"; "2"]%string (consistenthash.New atoi 1 (Some atoi)).

(** A callback that logs the pairs it is called with, latest first. *)
Definition log : lru.Callback Z Z (list (Z * Z)) :=
  λ k v _ w, (k, v) :: w.

(** A cache of capacity [n] with the logging callback, in an empty
    memory. *)
Definition fresh_cache (n : Z) : lru.state Z Z (list (Z * Z)) :=
  {| lru.c := lru.set_OnEvicted (Some log) (lru.New n);
     lru.heap := ∅;
     lru.world := [] |}.

(** The state after the given calls on [fresh_cache n]. *)
Definition after (n : Z) (os : list (lru.call Z Z (list (Z * Z))))
  : lru.state Z Z (list (Z * Z)) :=
  default (fresh_cache n) (lru.run os (fresh_cache n)).

(** A cache of capacity 2 holding the keys 2 and 1, most recent first. *)
Definition cache21 : lru.state Z Z (list (Z * Z)) :=
  after 2 [lru.CallAdd 1 10; lru.CallAdd 2 20].

(** An unbounded cache holding three entries. *)
Definition cache321 : lru.state Z Z (list (Z * Z)) :=
  after 0 [lru.CallAdd 1 10; lru.CallAdd 2 20; lru.CallAdd 3 30].

(** A cache that has been cleared. *)
Definition cleared : lru.state Z Z (list (Z * Z)) :=
  after 0 [lru.CallAdd 1 10; lru.CallClear map_to_list].

(** A cache of capacity 2 holding one entry. *)
Definition cache1 : lru.state Z Z (list (Z * Z)) :=
  after 2 [lru.CallAdd 1 10].

(** A cache of capacity 3 holding the keys 3, 2 and 1, most recent
    first. *)
Definition cache321of3 : lru.state Z Z (list (Z * Z)) :=
  after 3 [lru.CallAdd 1 10; lru.CallAdd 2 20; lru.CallAdd 3 30].

(** A sequence with every kind of call. *)
Definition session : list (lru.call Z Z (list (Z * Z))) :=
  [lru.CallAdd 1 10; lru.CallAdd 2 20; lru.CallGet 1; lru.CallAdd 3 30;
   lru.CallLen; lru.CallRemove 3; lru.SetOnEvicted (Some log);
   lru.CallClear map_to_list; lru.CallAdd 4 40; lru.CallRemoveOldest;
   lru.CallAdd 5 50].

End examples.

(** * Properties *)

(** ** sort.Search *)

Module sort_spec.
Import sort.

Lemma shiftr_1_mid (i j : Z) : i < j → i ≤ Z.shiftr (i + j) 1 < j.
Proof.
  intros Hij. rewrite Z.shiftr_div_pow2 by lia.
  change (2 ^ 1) with 2. split.
  - apply Z.div_le_lower_bound; lia.
  - apply Z.div_lt_upper_bound; lia.
Qed.

(** The loop keeps [i ≤ j], answers [false] everywhere left of the
    result and [true] from the result on, provided [f] never goes
    back from [true] to [false] on the interval searched. *)
Lemma Search_loop_spec (fuel : nat) (f : Z → bool) (i j : Z) :
  i ≤ j → j - i ≤ Z.of_nat fuel →
  (∀ x y, i ≤ x → x ≤ y → y < j → f x = true → f y = true) →
  i ≤ Search_loop fuel f i j ≤ j
  ∧ (∀ x, i ≤ x < Search_loop fuel f i j → f x = false)
  ∧ (∀ x, Search_loop fuel f i j ≤ x < j → f x = true).
Proof.
  revert i j. induction fuel as [|fuel IH]; intros i j Hij Hfuel Hmono.
  - simpl. repeat split; intros; lia.
  - simpl. destruct (Z.ltb_spec i j) as [Hlt|Hge].
    2: { repeat split; intros; lia. }
    pose proof (shiftr_1_mid i j Hlt) as Hh.
    set (h := Z.shiftr (i + j) 1) in *.
    destruct (f h) eqn:Hfh; simpl.
    + destruct (IH i h) as (Hr & Hlo & Hhi); [lia | lia | |].
      { intros x y ? ? ?. apply Hmono; lia. }
      repeat split; try lia; [exact Hlo|].
      intros x Hx. destruct (Z.lt_ge_cases x h) as [?|?].
      * apply Hhi; lia.
      * apply (Hmono h x); lia || assumption.
    + destruct (IH (h + 1) j) as (Hr & Hlo & Hhi); [lia | lia | |].
      { intros x y ? ? ?. apply Hmono; lia. }
      repeat split; try lia; [|exact Hhi].
      intros x Hx. destruct (Z.lt_ge_cases x (h + 1)) as [?|?].
      * destruct (f x) eqn:Hfx; [|done].
        rewrite (Hmono x h) in Hfh; [done | lia | lia | lia | done].
      * apply Hlo; lia.
Qed.

Lemma Search_spec (n : Z) (f : Z → bool) :
  0 ≤ n →
  (∀ x y, 0 ≤ x → x ≤ y → y < n → f x = true → f y = true) →
  0 ≤ Search n f ≤ n
  ∧ (∀ x, 0 ≤ x < Search n f → f x = false)
  ∧ (∀ x, Search n f ≤ x < n → f x = true).
Proof.
  intros Hn Hmono. unfold Search. apply Search_loop_spec; [lia | lia | done].
Qed.

(** The result is between [0] and [n] whatever [f] is. *)
Lemma Search_loop_range (fuel : nat) (f : Z → bool) (i j : Z) :
  i ≤ j → i ≤ Search_loop fuel f i j ≤ j.
Proof.
  revert i j. induction fuel as [|fuel IH]; intros i j Hij; simpl; [lia|].
  destruct (Z.ltb_spec i j) as [Hlt|Hge]; [|lia].
  pose proof (shiftr_1_mid i j Hlt) as Hh.
  destruct (negb _).
  - specialize (IH (Z.shiftr (i + j) 1 + 1) j). lia.
  - specialize (IH i (Z.shiftr (i + j) 1)). lia.
Qed.

(** [f] is only called inside the interval searched. *)
Lemma Search_loop_ext (fuel : nat) (f g : Z → bool) (i j : Z) :
  (∀ x, i ≤ x < j → f x = g x) →
  Search_loop fuel f i j = Search_loop fuel g i j.
Proof.
  revert i j. induction fuel as [|fuel IH]; intros i j Hfg; simpl; [done|].
  destruct (Z.ltb_spec i j) as [Hlt|Hge]; [|done].
  pose proof (shiftr_1_mid i j Hlt) as Hh.
  rewrite <- (Hfg (Z.shiftr (i + j) 1)) by lia.
  destruct (negb _); apply IH; intros; apply Hfg; lia.
Qed.

Lemma Ints_Sorted (a : list Z) : Sorted Z.le (Ints a).
Proof. apply (Sorted_merge_sort Z.le). Qed.

Lemma Ints_Permutation (a : list Z) : Ints a ≡ₚ a.
Proof. apply merge_sort_Permutation. Qed.

End sort_spec.

(** ** The hash ring *)

Module consistenthash_spec.
Import consistenthash.

Lemma Add_replicas_fold (key : string) (ixs : list nat) (m : Map) :
  let ps := map (λ i : nat, (hash m (strconv.Itoa (Z.of_nat i) +:+ key), key)) ixs in
  fold_left (Add_replica key) ixs m =
  {| hash := hash m; replicas := replicas m;
     keys := keys m ++ ps.*1; hashMap := write_all ps (hashMap m) |}.
Proof.
  revert m. induction ixs as [|i ixs IH]; intros m; simpl.
  - rewrite app_nil_r. by destruct m.
  - rewrite IH. simpl. by rewrite <- app_assoc.
Qed.

Lemma Add_key_eq (m : Map) (key : string) :
  Add_key m key =
  {| hash := hash m; replicas := replicas m;
     keys := keys m ++ (positions m [key]).*1;
     hashMap := write_all (positions m [key]) (hashMap m) |}.
Proof.
  unfold Add_key, positions. simpl. rewrite app_nil_r. apply Add_replicas_fold.
Qed.

Lemma positions_cons (m : Map) (node : string) (nodes : list string) :
  positions m (node :: nodes) = positions m [node] ++ positions m nodes.
Proof. unfold positions. simpl. by rewrite app_nil_r. Qed.

Lemma positions_ext (m m' : Map) (nodes : list string) :
  hash m' = hash m → replicas m' = replicas m →
  positions m' nodes = positions m nodes.
Proof. intros Hh Hr. unfold positions. by rewrite Hh, Hr. Qed.

Lemma write_all_app (ps qs : list (Z * string)) (hm : gmap Z string) :
  write_all (ps ++ qs) hm = write_all qs (write_all ps hm).
Proof. apply fold_left_app. Qed.

Lemma Add_keys_fold (nodes : list string) (m : Map) :
  fold_left Add_key nodes m =
  {| hash := hash m; replicas := replicas m;
     keys := keys m ++ (positions m nodes).*1;
     hashMap := write_all (positions m nodes) (hashMap m) |}.
Proof.
  revert m. induction nodes as [|node nodes IH]; intros m.
  - simpl. rewrite app_nil_r. by destruct m.
  - rewrite (positions_cons m node nodes).
    cbn [fold_left]. rewrite IH, Add_key_eq. cbn [hash replicas keys hashMap].
    rewrite fmap_app, write_all_app, <- app_assoc.
    by rewrite (positions_ext m _ nodes).
Qed.

(** The last write to a position decides what the table holds there. *)
Lemma write_all_lookup (ps : list (Z * string)) (hm : gmap Z string) (p : Z) :
  write_all ps hm !! p =
  match last (filter (λ x, x.1 = p) ps) with
  | Some x => Some x.2
  | None => hm !! p
  end.
Proof.
  induction ps as [|[q n] ps IH] using rev_ind; [done|].
  rewrite write_all_app, filter_app. simpl.
  rewrite filter_cons, filter_nil. simpl. case_decide as Hq.
  - subst q. rewrite last_snoc. apply lookup_insert_eq.
  - rewrite app_nil_r, lookup_insert_ne by done. apply IH.
Qed.

Lemma Sorted_le_lookup (l : list Z) (i j : nat) (x y : Z) :
  Sorted Z.le l → l !! i = Some x → l !! j = Some y → (i ≤ j)%nat → x ≤ y.
Proof.
  intros Hs%Sorted_StronglySorted; [|intros ???; lia].
  revert i j. induction Hs as [|a l Hs IH Hall]; intros i j Hi Hj Hij; [done|].
  destruct i as [|i], j as [|j]; simpl in *; simplify_eq; try lia.
  - rewrite Forall_forall in Hall. apply Hall. by eapply list_elem_of_lookup_2.
  - eapply IH; eauto. lia.
Qed.

Lemma write_all_is_Some (ps : list (Z * string)) (hm : gmap Z string) (p : Z) :
  is_Some (write_all ps hm !! p) ↔ is_Some (hm !! p) ∨ p ∈ ps.*1.
Proof.
  induction ps as [|[q n] ps IH] using rev_ind.
  - simpl. rewrite elem_of_nil. tauto.
  - rewrite write_all_app, fmap_app, elem_of_app. simpl.
    rewrite lookup_insert, list_elem_of_singleton. case_decide as Hq.
    + subst q. split; [intros _; right; by right | by eauto].
    + rewrite IH. split; [tauto|]. intros [?|[?|?]]; [tauto | tauto | congruence].
Qed.

(** The invariants of the data model hold of every ring built by
    [New] and [Add]: the positions are sorted, and the table is
    defined exactly on them. *)
Lemma reachable_inv (ChecksumIEEE : Hash) (m : Map) :
  reachable ChecksumIEEE m →
  Sorted Z.le (keys m) ∧ ∀ p, p ∈ keys m ↔ is_Some (hashMap m !! p).
Proof.
  induction 1 as [r fn|nodes m Hm [IHs IHd]].
  - split; [constructor|]. intros p. simpl. rewrite lookup_empty.
    split; [by intros ?%elem_of_nil | by intros [? ?]].
  - split; [apply sort_spec.Ints_Sorted|]. intros p.
    unfold Add. rewrite Add_keys_fold. cbn [keys hashMap].
    by rewrite sort_spec.Ints_Permutation, elem_of_app, IHd, write_all_is_Some.
Qed.

(** What [Get] computes on a non-empty ring, in terms of the index
    [sort.Search] returns. *)
Lemma Get_nonempty (m : Map) (key : string) :
  keys m ≠ [] →
  let n := Z.of_nat (length (keys m)) in
  let idx := sort.Search n (λ i, bool_decide (hash m key ≤ default 0 (keys m !! Z.to_nat i))) in
  0 ≤ idx ≤ n
  ∧ Get m key =
      (k ← keys m !! Z.to_nat (if bool_decide (idx = n) then 0 else idx);
       Some (default ""%string (hashMap m !! k))).
Proof.
  intros Hne n idx.
  assert (0 < n) as Hn.
  { subst n. destruct (keys m); [done | simpl; lia]. }
  assert (0 ≤ idx ≤ n) as Hidx.
  { subst idx. unfold sort.Search. apply sort_spec.Search_loop_range. lia. }
  split; [done|]. unfold Get, IsEmpty. fold n. fold idx.
  rewrite bool_decide_eq_false_2 by lia.
  rewrite (bool_decide_eq_true_2 (0 ≤ _ < n)); [done|].
  case_bool_decide; lia.
Qed.

(** The closure [Get] hands to [sort.Search] is only called with
    indices of [m.keys]: what it would answer elsewhere is irrelevant. *)
Lemma Get_Search_in_range (m : Map) (h d : Z) :
  let n := Z.of_nat (length (keys m)) in
  sort.Search n (λ i, bool_decide (h ≤ default d (keys m !! Z.to_nat i))) =
  sort.Search n (λ i, bool_decide (h ≤ default 0 (keys m !! Z.to_nat i))).
Proof.
  intros n. unfold sort.Search. apply sort_spec.Search_loop_ext.
  intros x Hx.
  destruct (lookup_lt_is_Some_2 (keys m) (Z.to_nat x)) as [k Hk]; [lia|].
  by rewrite Hk.
Qed.

(** C1.  On a ring whose position sequence is sorted (as it is after
    every [Add]) and not empty, [Get key] returns the node stored for
    a position [p] of the sequence, found at index [idx], such that
    either [p] is the smallest position that is at least [hash key],
    at the leftmost index holding such a position, or every position
    is below [hash key] and [p] is the first and smallest position. *)
Theorem Get_successor (m : Map) (key : string) :
  Sorted Z.le (keys m) → keys m ≠ [] →
  ∃ (idx : nat) (p : Z),
    keys m !! idx = Some p
    ∧ Get m key = Some (default ""%string (hashMap m !! p))
    ∧ ((hash m key ≤ p
        ∧ (∀ j q, keys m !! j = Some q → hash m key ≤ q → (idx ≤ j)%nat ∧ p ≤ q))
       ∨ ((∀ q, q ∈ keys m → q < hash m key)
          ∧ idx = 0%nat
          ∧ (∀ q, q ∈ keys m → p ≤ q))).
Proof.
  intros Hsorted Hne.
  destruct (Get_nonempty m key Hne) as [Hidx HGet].
  assert (0 < length (keys m))%nat as Hlen.
  { destruct (keys m); [done | simpl; lia]. }
  set (n := Z.of_nat (length (keys m))) in *.
  set (f := λ i : Z, bool_decide (hash m key ≤ default 0 (keys m !! Z.to_nat i))) in *.
  set (idx := sort.Search n f) in *.
  assert (∀ i x, keys m !! i = Some x → f (Z.of_nat i) = bool_decide (hash m key ≤ x))
    as Hf.
  { intros i x Hi. unfold f. by rewrite Nat2Z.id, Hi. }
  destruct (sort_spec.Search_spec n f) as (_ & Hlo & Hhi); [lia | |].
  { intros x y Hx Hxy Hy Hfx.
    destruct (lookup_lt_is_Some_2 (keys m) (Z.to_nat x)) as [kx Hkx]; [lia|].
    destruct (lookup_lt_is_Some_2 (keys m) (Z.to_nat y)) as [ky Hky]; [lia|].
    pose proof (Sorted_le_lookup _ _ _ _ _ Hsorted Hkx Hky ltac:(lia)).
    rewrite <- (Z2Nat.id x), (Hf _ _ Hkx) in Hfx by lia.
    rewrite <- (Z2Nat.id y), (Hf _ _ Hky) by lia.
    apply bool_decide_eq_true in Hfx. apply bool_decide_eq_true. lia. }
  fold idx in Hlo, Hhi. case_bool_decide as Hend.
  - (* every position is below the hash: wrap around *)
    destruct (lookup_lt_is_Some_2 (keys m) 0) as [p Hp]; [lia|].
    change (Z.to_nat 0) with 0%nat in HGet. rewrite Hp in HGet.
    exists 0%nat, p. split_and!; [done | done |]. right.
    assert (∀ q, q ∈ keys m → q < hash m key) as Hall.
    { intros q [j Hj]%list_elem_of_lookup.
      pose proof (lookup_lt_Some _ _ _ Hj).
      specialize (Hlo (Z.of_nat j) ltac:(lia)). rewrite (Hf _ _ Hj) in Hlo.
      apply bool_decide_eq_false in Hlo. lia. }
    split_and!; [done | done |].
    intros q [j Hj]%list_elem_of_lookup.
    eapply Sorted_le_lookup; eauto. lia.
  - destruct (lookup_lt_is_Some_2 (keys m) (Z.to_nat idx)) as [p Hp]; [lia|].
    rewrite Hp in HGet. exists (Z.to_nat idx), p.
    split_and!; [done | done |]. left.
    assert (hash m key ≤ p) as Hge.
    { specialize (Hhi idx ltac:(lia)).
      rewrite <- (Z2Nat.id idx), (Hf _ _ Hp) in Hhi by lia.
      by apply bool_decide_eq_true in Hhi. }
    split; [done|]. intros j q Hj Hq.
    assert (Z.to_nat idx ≤ j)%nat as Hle.
    { destruct (decide (Z.to_nat idx ≤ j)%nat) as [|Hlt]; [done|].
      specialize (Hlo (Z.of_nat j) ltac:(lia)). rewrite (Hf _ _ Hj) in Hlo.
      apply bool_decide_eq_false in Hlo. lia. }
    split; [done|]. eapply Sorted_le_lookup; eauto.
Qed.

Lemma Get_successor_witness :
  Sorted Z.le (keys examples.ring246) ∧ keys examples.ring246 ≠ []
  ∧ ∃ (idx : nat) (p : Z),
      keys examples.ring246 !! idx = Some p
      ∧ Get examples.ring246 "11" =
          Some (default ""%string (hashMap examples.ring246 !! p))
      ∧ ((hash examples.ring246 "11" ≤ p
          ∧ (∀ j q, keys examples.ring246 !! j = Some q →
                    hash examples.ring246 "11" ≤ q → (idx ≤ j)%nat ∧ p ≤ q))
         ∨ ((∀ q, q ∈ keys examples.ring246 → q < hash examples.ring246 "11")
            ∧ idx = 0%nat
            ∧ (∀ q, q ∈ keys examples.ring246 → p ≤ q))).
Proof.
  assert (Sorted Z.le (keys examples.ring246)) as Hs
    by apply sort_spec.Ints_Sorted.
  assert (keys examples.ring246 ≠ []) as Hne by (vm_compute; discriminate).
  split; [exact Hs|]. split; [exact Hne|].
  exact (Get_successor examples.ring246 "11" Hs Hne).
Defined.

(** C4.  [Add nodes] leaves the hash function and the replica count
    alone; the new position sequence is the sorted old sequence
    followed by one position [hash (Itoa i ++ node)] per supplied node
    and replica index [i < replicas], in loop order; the new table is
    the old one with [position := node] written for each of these in
    that order, so that at every position the last write wins. *)
Theorem Add_positions (nodes : list string) (m : Map) :
  let ps := positions m nodes in
  hash (Add nodes m) = hash m
  ∧ replicas (Add nodes m) = replicas m
  ∧ keys (Add nodes m) = sort.Ints (keys m ++ ps.*1)
  ∧ keys (Add nodes m) ≡ₚ keys m ++ ps.*1
  ∧ Sorted Z.le (keys (Add nodes m))
  ∧ hashMap (Add nodes m) = write_all ps (hashMap m)
  ∧ (∀ p, hashMap (Add nodes m) !! p =
          match last (filter (λ x, x.1 = p) ps) with
          | Some x => Some x.2
          | None => hashMap m !! p
          end)
  ∧ (∀ node (i : nat), node ∈ nodes → (Z.of_nat i < replicas m) →
       (hash m (strconv.Itoa (Z.of_nat i) +:+ node), node) ∈ ps).
Proof.
  intros ps. unfold Add. rewrite Add_keys_fold. cbn [hash replicas keys hashMap].
  fold ps. split_and!; try done.
  - apply sort_spec.Ints_Permutation.
  - apply sort_spec.Ints_Sorted.
  - intros p. apply write_all_lookup.
  - intros node i Hnode Hi. unfold ps, positions.
    apply list_elem_of_In, in_flat_map. exists node. split; [by apply list_elem_of_In|].
    apply in_map_iff. exists i. split; [done|]. apply in_seq. lia.
Qed.

(** C8.  A ring just built by [New] is empty, and [Get] on it returns
    the empty string for every key, without a panic. *)
Theorem New_empty (ChecksumIEEE : Hash) (replicas : Z) (fn : option Hash) (key : string) :
  keys (New ChecksumIEEE replicas fn) = []
  ∧ IsEmpty (New ChecksumIEEE replicas fn) = true
  ∧ Get (New ChecksumIEEE replicas fn) key = Some ""%string.
Proof. done. Qed.

(** On every non-empty ring built by [New] and [Add], [Get] returns a
    node of the table, stored for one of the positions. *)
Lemma reachable_Get (ChecksumIEEE : Hash) (m : Map) (key : string) :
  reachable ChecksumIEEE m → keys m ≠ [] →
  ∃ p, p ∈ keys m ∧ Get m key = hashMap m !! p.
Proof.
  intros [Hs Hd]%reachable_inv Hne.
  destruct (Get_nonempty m key Hne) as [Hidx ->].
  assert (0 < length (keys m))%nat as Hlen.
  { destruct (keys m); [done | simpl; lia]. }
  set (i := Z.to_nat _).
  destruct (lookup_lt_is_Some_2 (keys m) i) as [p Hp].
  { subst i. case_bool_decide; lia. }
  rewrite Hp. simpl. exists p.
  assert (p ∈ keys m) as Hin by by eapply list_elem_of_lookup_2.
  split; [done|]. apply Hd in Hin as [node ->]. done.
Qed.

(** ** Further properties of the ring *)

Lemma serves_unique (h : Z) (l : list Z) (p p' : Z) :
  serves h l p → serves h l p' → p = p'.
Proof.
  intros [Hp [[Hge Hmin]|[Hall Hmin]]] [Hp' [[Hge' Hmin']|[Hall' Hmin']]].
  - specialize (Hmin p' Hp' Hge'). specialize (Hmin' p Hp Hge). lia.
  - specialize (Hall' p Hp). lia.
  - specialize (Hall p' Hp'). lia.
  - specialize (Hmin p' Hp'). specialize (Hmin' p Hp). lia.
Qed.

(** Which position serves a hash depends on the set of positions only. *)
Lemma serves_same_set (h : Z) (l l' : list Z) (p : Z) :
  (∀ q, q ∈ l ↔ q ∈ l') → serves h l p → serves h l' p.
Proof.
  intros Hset [Hp Hcase]. split; [by apply Hset|].
  destruct Hcase as [[Hge Hmin]|[Hall Hmin]]; [left|right]; split; try done;
    intros q Hq%Hset; auto.
Qed.

(** [Get] on a sorted, non-empty ring reads the table at the position
    that serves the hash of the key. *)
Lemma Get_serves (m : Map) (key : string) :
  Sorted Z.le (keys m) → keys m ≠ [] →
  ∃ p, serves (hash m key) (keys m) p
       ∧ Get m key = Some (default ""%string (hashMap m !! p)).
Proof.
  intros Hsorted Hne.
  destruct (Get_nonempty m key Hne) as [Hidx HGet].
  assert (0 < length (keys m))%nat as Hlen.
  { destruct (keys m); [done | simpl; lia]. }
  set (n := Z.of_nat (length (keys m))) in *.
  set (f := λ i : Z, bool_decide (hash m key ≤ default 0 (keys m !! Z.to_nat i))) in *.
  set (idx := sort.Search n f) in *.
  assert (∀ i x, keys m !! i = Some x → f (Z.of_nat i) = bool_decide (hash m key ≤ x))
    as Hf.
  { intros i x Hi. unfold f. by rewrite Nat2Z.id, Hi. }
  destruct (sort_spec.Search_spec n f) as (_ & Hlo & Hhi); [lia | |].
  { intros x y Hx Hxy Hy Hfx.
    destruct (lookup_lt_is_Some_2 (keys m) (Z.to_nat x)) as [kx Hkx]; [lia|].
    destruct (lookup_lt_is_Some_2 (keys m) (Z.to_nat y)) as [ky Hky]; [lia|].
    pose proof (Sorted_le_lookup _ _ _ _ _ Hsorted Hkx Hky ltac:(lia)).
    rewrite <- (Z2Nat.id x), (Hf _ _ Hkx) in Hfx by lia.
    rewrite <- (Z2Nat.id y), (Hf _ _ Hky) by lia.
    apply bool_decide_eq_true in Hfx. apply bool_decide_eq_true. lia. }
  fold idx in Hlo, Hhi.
  assert (∀ q, q ∈ keys m → q < hash m key ∨
               ∃ j, keys m !! j = Some q ∧ idx ≤ Z.of_nat j) as Hsplit.
  { intros q [j Hj]%list_elem_of_lookup.
    destruct (Z.lt_ge_cases (Z.of_nat j) idx) as [Hlt|Hge]; [left|right; eauto].
    specialize (Hlo (Z.of_nat j) ltac:(lia)). rewrite (Hf _ _ Hj) in Hlo.
    apply bool_decide_eq_false in Hlo. lia. }
  case_bool_decide as Hend.
  - destruct (lookup_lt_is_Some_2 (keys m) 0) as [p Hp]; [lia|].
    change (Z.to_nat 0) with 0%nat in HGet. rewrite Hp in HGet.
    exists p. split; [|done]. split; [by eapply list_elem_of_lookup_2|]. right.
    split.
    + intros q Hq. destruct (Hsplit q Hq) as [?|(j & Hj & Hle)]; [done|].
      apply lookup_lt_Some in Hj. lia.
    + intros q [j Hj]%list_elem_of_lookup. eapply Sorted_le_lookup; eauto. lia.
  - destruct (lookup_lt_is_Some_2 (keys m) (Z.to_nat idx)) as [p Hp]; [lia|].
    rewrite Hp in HGet. exists p. split; [|done].
    split; [by eapply list_elem_of_lookup_2|]. left.
    assert (hash m key ≤ p) as Hge.
    { specialize (Hhi idx ltac:(lia)).
      rewrite <- (Z2Nat.id idx), (Hf _ _ Hp) in Hhi by lia.
      by apply bool_decide_eq_true in Hhi. }
    split; [done|]. intros q Hq Hhq.
    destruct (Hsplit q Hq) as [?|(j & Hj & Hle)]; [lia|].
    eapply Sorted_le_lookup; eauto. lia.
Qed.

Lemma Get_empty (m : Map) (key : string) :
  keys m = [] → Get m key = Some ""%string.
Proof. unfold Get, IsEmpty. by intros ->. Qed.


Lemma Ints_ext (a b : list Z) : a ≡ₚ b → sort.Ints a = sort.Ints b.
Proof.
  intros Hab. apply (Sorted_unique Z.le); try apply sort_spec.Ints_Sorted.
  by rewrite !sort_spec.Ints_Permutation.
Qed.

Lemma Add_eq (nodes : list string) (m : Map) :
  Add nodes m =
  {| hash := hash m; replicas := replicas m;
     keys := sort.Ints (keys m ++ (positions m nodes).*1);
     hashMap := write_all (positions m nodes) (hashMap m) |}.
Proof. unfold Add. by rewrite Add_keys_fold. Qed.

Lemma positions_app (m : Map) (ns1 ns2 : list string) :
  positions m (ns1 ++ ns2) = positions m ns1 ++ positions m ns2.
Proof. unfold positions. by rewrite flat_map_app. Qed.

(** X2.  Two calls of [Add] in a row do what one call with all the
    nodes does: the same positions, sorted, and the same table. *)
Theorem Add_Add (ns1 ns2 : list string) (m : Map) :
  Add ns2 (Add ns1 m) = Add (ns1 ++ ns2) m.
Proof.
  rewrite (Add_eq ns2), (Add_eq ns1), (Add_eq (ns1 ++ ns2)). cbn [hash replicas keys hashMap].
  rewrite (positions_ext m _ ns2) by done.
  rewrite positions_app, fmap_app, write_all_app. f_equal.
  apply Ints_ext. by rewrite sort_spec.Ints_Permutation, app_assoc.
Qed.

Lemma length_positions (m : Map) (nodes : list string) :
  length (positions m nodes) = (length nodes * Z.to_nat (replicas m))%nat.
Proof.
  unfold positions. induction nodes as [|node nodes IH]; [done|].
  cbn [flat_map]. rewrite length_app, length_map, length_seq, IH. simpl. lia.
Qed.

(** X3.  [Add] stores one position per node and replica, also when
    positions or nodes repeat; so the ring is empty after [Add] exactly
    when it was empty before and no node was given or the replica count
    is not positive. *)
Theorem Add_length (nodes : list string) (m : Map) :
  length (keys (Add nodes m)) =
    (length (keys m) + length nodes * Z.to_nat (replicas m))%nat
  ∧ (IsEmpty (Add nodes m) = true ↔
     keys m = [] ∧ (nodes = [] ∨ replicas m ≤ 0)).
Proof.
  assert (length (keys (Add nodes m)) =
            (length (keys m) + length nodes * Z.to_nat (replicas m))%nat) as Hlen.
  { rewrite Add_eq. cbn [keys]. rewrite sort_spec.Ints_Permutation.
    by rewrite length_app, length_fmap, length_positions. }
  split; [done|]. unfold IsEmpty. rewrite bool_decide_eq_true, Hlen. split.
  - intros Hz. split; [apply length_zero_iff_nil; lia|].
    destruct nodes; [by left|right]. simpl in Hz. lia.
  - intros [-> [->|Hr]]; simpl; [lia|].
    rewrite Z2Nat.nonpos by done. lia.
Qed.

Lemma elem_of_positions (m : Map) (nodes : list string) (x : Z * string) :
  x ∈ positions m nodes → x.2 ∈ nodes.
Proof.
  unfold positions. rewrite list_elem_of_In, in_flat_map.
  intros (node & Hnode & Hx). apply in_map_iff in Hx as (i & <- & _).
  by apply list_elem_of_In.
Qed.

(** What a position holds after [Add]: a node of the call if the call
    wrote there, what it held before if not. *)
Lemma Add_lookup (nodes : list string) (m : Map) (p : Z) :
  ((p ∈ (positions m nodes).*1)
   ∧ (∃ node, node ∈ nodes ∧ hashMap (Add nodes m) !! p = Some node))
  ∨ ((p ∉ (positions m nodes).*1)
     ∧ hashMap (Add nodes m) !! p = hashMap m !! p).
Proof.
  rewrite Add_eq. cbn [hashMap]. rewrite write_all_lookup.
  destruct (last (filter (λ x, x.1 = p) (positions m nodes))) as [x|] eqn:Hlast.
  - left. apply last_Some_elem_of, list_elem_of_filter in Hlast as [Hx Hin].
    split.
    + apply list_elem_of_fmap. by exists x.
    + exists x.2. split; [by eapply elem_of_positions | done].
  - right. split; [|done]. apply last_None in Hlast.
    intros ([q n] & -> & Hin)%list_elem_of_fmap.
    by apply (filter_nil_not_elem_of _ _ (q, n) Hlast).
Qed.

Lemma elem_of_keys_Add (nodes : list string) (m : Map) (p : Z) :
  p ∈ keys (Add nodes m) ↔ p ∈ keys m ∨ p ∈ (positions m nodes).*1.
Proof.
  rewrite Add_eq. cbn [keys].
  by rewrite sort_spec.Ints_Permutation, elem_of_app.
Qed.

Lemma Add_keeps_inv (added nodes : list string) (m : Map) :
  (∀ p, p ∈ keys m ↔ is_Some (hashMap m !! p)) →
  (∀ p node, hashMap m !! p = Some node → node ∈ added) →
  Sorted Z.le (keys (Add nodes m))
  ∧ (∀ p, p ∈ keys (Add nodes m) ↔ is_Some (hashMap (Add nodes m) !! p))
  ∧ (∀ p node, hashMap (Add nodes m) !! p = Some node → node ∈ added ++ nodes).
Proof.
  intros Hdom Hval. split_and!.
  - rewrite Add_eq. apply sort_spec.Ints_Sorted.
  - intros p. rewrite elem_of_keys_Add, Hdom.
    destruct (Add_lookup nodes m p) as [[Hin (node & _ & ->)]|[Hnin ->]].
    + split; [by eauto | by right].
    + tauto.
  - intros p node. rewrite elem_of_app.
    destruct (Add_lookup nodes m p) as [[Hin (node' & Hnode' & ->)]|[Hnin ->]].
    + intros [= <-]. by right.
    + intros Hp. left. by eapply Hval.
Qed.

Lemma Adds_keeps_inv (calls : list (list string)) (added : list string) (m : Map) :
  Sorted Z.le (keys m) →
  (∀ p, p ∈ keys m ↔ is_Some (hashMap m !! p)) →
  (∀ p node, hashMap m !! p = Some node → node ∈ added) →
  Sorted Z.le (keys (Adds calls m))
  ∧ (∀ p, p ∈ keys (Adds calls m) ↔ is_Some (hashMap (Adds calls m) !! p))
  ∧ (∀ p node, hashMap (Adds calls m) !! p = Some node →
               node ∈ added ++ concat calls).
Proof.
  revert added m. induction calls as [|nodes calls IH]; intros added m Hs Hdom Hval.
  { simpl. rewrite app_nil_r. done. }
  destruct (Add_keeps_inv added nodes m Hdom Hval) as (Hs1 & Hdom1 & Hval1).
  destruct (IH (added ++ nodes) (Add nodes m) Hs1 Hdom1 Hval1) as (Hs' & Hdom' & Hval').
  cbn [Adds fold_left concat]. fold (Adds calls (Add nodes m)).
  split_and!; [done | done |]. intros p node Hp.
  rewrite app_assoc. by eapply Hval'.
Qed.

Lemma New_inv (ChecksumIEEE : Hash) (r : Z) (fn : option Hash) :
  Sorted Z.le (keys (New ChecksumIEEE r fn))
  ∧ (∀ p, p ∈ keys (New ChecksumIEEE r fn)
          ↔ is_Some (hashMap (New ChecksumIEEE r fn) !! p))
  ∧ (∀ p node, hashMap (New ChecksumIEEE r fn) !! p = Some node → node ∈ @nil string).
Proof.
  split_and!; [constructor | |].
  - intros p. simpl. rewrite lookup_empty.
    split; [by intros ?%elem_of_nil | by intros [? ?]].
  - intros p node. simpl. by rewrite lookup_empty.
Qed.

(** X4.  Whatever [Add] calls a ring made by [New] has gone through,
    its positions are sorted, its table is defined exactly at its
    positions, every node in the table is one that was given to [Add],
    and the hash function and the replica count are those of [New]. *)
Theorem Adds_invariant (ChecksumIEEE : Hash) (r : Z) (fn : option Hash)
    (calls : list (list string)) :
  let m := Adds calls (New ChecksumIEEE r fn) in
  Sorted Z.le (keys m)
  ∧ (∀ p, p ∈ keys m ↔ is_Some (hashMap m !! p))
  ∧ (∀ p node, hashMap m !! p = Some node → node ∈ concat calls)
  ∧ hash m = hash (New ChecksumIEEE r fn)
  ∧ replicas m = r.
Proof.
  intros m. destruct (New_inv ChecksumIEEE r fn) as (Hs & Hdom & Hval).
  destruct (Adds_keeps_inv calls [] _ Hs Hdom Hval) as (Hs' & Hdom' & Hval').
  split_and!; [done | done | done | |].
  - subst m. generalize (New ChecksumIEEE r fn). clear.
    induction calls as [|nodes calls IH]; intros m0; [done|].
    cbn [Adds fold_left]. fold (Adds calls (Add nodes m0)). rewrite IH.
    by rewrite Add_eq.
  - subst m. change r with (replicas (New ChecksumIEEE r fn)) at 2.
    generalize (New ChecksumIEEE r fn). clear.
    induction calls as [|nodes calls IH]; intros m0; [done|].
    cbn [Adds fold_left]. fold (Adds calls (Add nodes m0)). rewrite IH.
    by rewrite Add_eq.
Qed.

(** X5.  On a ring made by [New] and [Add] calls that has a position,
    [Get] returns, for every key, one of the nodes given to [Add]. *)
Theorem Get_returns_added_node (ChecksumIEEE : Hash) (r : Z) (fn : option Hash)
    (calls : list (list string)) (key : string) :
  keys (Adds calls (New ChecksumIEEE r fn)) ≠ [] →
  ∃ node, node ∈ concat calls
          ∧ Get (Adds calls (New ChecksumIEEE r fn)) key = Some node.
Proof.
  intros Hne. destruct (New_inv ChecksumIEEE r fn) as (Hs & Hdom & Hval).
  destruct (Adds_keeps_inv calls [] _ Hs Hdom Hval) as (Hs' & Hdom' & Hval').
  destruct (Get_serves _ key Hs' Hne) as (p & [Hp _] & ->).
  apply Hdom' in Hp as [node Hnode]. exists node. rewrite Hnode.
  split; [by eapply Hval'|done].
Qed.

Lemma Get_returns_added_node_witness :
  keys (Adds [["6"; "4"]; ["2"]]%string (New examples.atoi 1 (Some examples.atoi))) ≠ []
  ∧ ∃ node, node ∈ concat [["6"; "4"]; ["2"]]%string
            ∧ Get (Adds [["6"; "4"]; ["2"]]%string
                        (New examples.atoi 1 (Some examples.atoi))) "11" = Some node.
Proof.
  assert (keys (Adds [["6"; "4"]; ["2"]]%string
                     (New examples.atoi 1 (Some examples.atoi))) ≠ []) as Hne
    by (vm_compute; discriminate).
  split; [exact Hne|].
  exact (Get_returns_added_node examples.atoi 1 (Some examples.atoi)
           [["6"; "4"]; ["2"]]%string "11" Hne).
Defined.

(** X6.  Adding nodes moves a key only to one of the new nodes: on a
    ring with sorted positions, [Get] after [Add nodes] returns what it
    returned before or one of [nodes]. *)
Theorem Add_moves_keys_to_new_nodes_only (nodes : list string) (m : Map) (key : string) :
  Sorted Z.le (keys m) →
  Get (Add nodes m) key = Get m key
  ∨ ∃ node, node ∈ nodes ∧ Get (Add nodes m) key = Some node.
Proof.
  intros Hs.
  assert (hash (Add nodes m) = hash m) as Hh by by rewrite Add_eq.
  destruct (decide (keys (Add nodes m) = [])) as [Hnil|Hne'].
  { left. rewrite (Get_empty _ key Hnil). symmetry. apply Get_empty.
    destruct (keys m) as [|q l] eqn:Hk; [done|].
    assert (q ∈ keys (Add nodes m)) as Hq by (apply elem_of_keys_Add; left; rewrite Hk; left).
    rewrite Hnil in Hq. by apply elem_of_nil in Hq. }
  assert (Sorted Z.le (keys (Add nodes m))) as Hs'.
  { rewrite Add_eq. apply sort_spec.Ints_Sorted. }
  destruct (Get_serves _ key Hs' Hne') as (p & Hserves & ->). rewrite Hh in Hserves.
  destruct (Add_lookup nodes m p) as [[Hin (node & Hnode & ->)]|[Hnin ->]].
  { right. by exists node. }
  left. pose proof Hserves as [Hp Hcase].
  apply elem_of_keys_Add in Hp as [Hp|Hp]; [|done].
  assert (keys m ≠ []) as Hne by (intros Hnil; rewrite Hnil in Hp; by apply elem_of_nil in Hp).
  destruct (Get_serves m key Hs Hne) as (p0 & Hserves0 & ->).
  assert (serves (hash m key) (keys m) p) as Hserves1.
  { split; [done|].
    destruct Hcase as [[Hge Hmin]|[Hall Hmin]]; [left|right]; split; try done;
      intros q Hq; [intros Hhq; apply Hmin | apply Hall | apply Hmin]; try done;
      apply elem_of_keys_Add; by left. }
  by rewrite (serves_unique _ _ _ _ Hserves0 Hserves1).
Qed.

Lemma Add_moves_keys_to_new_nodes_only_witness :
  Sorted Z.le (keys examples.ring246)
  ∧ (Get (Add ["8"]%string examples.ring246) "7" = Get examples.ring246 "7"
     ∨ ∃ node, node ∈ ["8"]%string
               ∧ Get (Add ["8"]%string examples.ring246) "7" = Some node).
Proof.
  assert (Sorted Z.le (keys examples.ring246)) as Hs by apply sort_spec.Ints_Sorted.
  split; [exact Hs|].
  exact (Add_moves_keys_to_new_nodes_only ["8"]%string examples.ring246 "7" Hs).
Defined.

Lemma write_all_idem (ps : list (Z * string)) (hm : gmap Z string) :
  write_all ps (write_all ps hm) = write_all ps hm.
Proof.
  apply map_eq. intros p. rewrite (write_all_lookup ps (write_all ps hm)).
  rewrite (write_all_lookup ps hm). by destruct (last _).
Qed.

(** X7.  Adding the same nodes a second time changes no answer of
    [Get], although their positions are then stored twice. *)
Theorem Add_again_same_Get (nodes : list string) (m : Map) (key : string) :
  Get (Add nodes (Add nodes m)) key = Get (Add nodes m) key.
Proof.
  set (m1 := Add nodes m). set (m2 := Add nodes m1).
  assert (positions m1 nodes = positions m nodes) as Hps.
  { apply positions_ext; unfold m1; by rewrite Add_eq. }
  assert (hash m2 = hash m1) as Hh by (unfold m2; by rewrite Add_eq).
  assert (hashMap m2 = hashMap m1) as Hhm.
  { unfold m2. rewrite Add_eq. cbn [hashMap]. rewrite Hps.
    unfold m1. rewrite Add_eq. cbn [hashMap]. apply write_all_idem. }
  assert (∀ q, q ∈ keys m1 ↔ q ∈ keys m2) as Hset.
  { intros q. unfold m2. rewrite elem_of_keys_Add, Hps. split; [by left|].
    intros [?|Hq]; [done|]. unfold m1. apply elem_of_keys_Add. by right. }
  assert (Sorted Z.le (keys m1)) as Hs1.
  { unfold m1. rewrite Add_eq. apply sort_spec.Ints_Sorted. }
  assert (Sorted Z.le (keys m2)) as Hs2.
  { unfold m2. rewrite Add_eq. apply sort_spec.Ints_Sorted. }
  destruct (decide (keys m1 = [])) as [Hnil|Hne1].
  { assert (keys m2 = []) as Hnil2.
    { destruct (keys m2) as [|q l] eqn:Hk; [done|].
      assert (q ∈ keys m1) as Hq by (apply Hset; left).
      rewrite Hnil in Hq. by apply elem_of_nil in Hq. }
    by rewrite (Get_empty m1 key Hnil), (Get_empty m2 key Hnil2). }
  assert (keys m2 ≠ []) as Hne2.
  { intros Hnil. destruct (keys m1) as [|q l] eqn:Hk; [done|].
    assert (q ∈ keys m2) as Hq by (apply Hset; left).
    rewrite Hnil in Hq. by apply elem_of_nil in Hq. }
  destruct (Get_serves m1 key Hs1 Hne1) as (p1 & Hp1 & ->).
  destruct (Get_serves m2 key Hs2 Hne2) as (p2 & Hp2 & ->).
  rewrite Hh in Hp2. apply (serves_same_set _ _ _ _ Hset) in Hp1.
  by rewrite Hhm, (serves_unique _ _ _ _ Hp1 Hp2).
Qed.

Lemma length_filter_fst_NoDup (ps : list (Z * string)) (p : Z) :
  NoDup ps.*1 → (length (filter (λ x, x.1 = p) ps) ≤ 1)%nat.
Proof.
  induction ps as [|[q n] ps IH]; [simpl; lia|].
  rewrite fmap_cons. intros [Hq Hnd]%NoDup_cons. specialize (IH Hnd).
  rewrite filter_cons. case_decide as Hqp; [|done]. simpl in *. subst q.
  assert (filter (λ x, x.1 = p) ps = []) as ->; [|simpl; lia].
  destruct (filter (λ x, x.1 = p) ps) as [|x l] eqn:Hf; [done|].
  assert (x ∈ filter (λ x, x.1 = p) ps) as Hx by (rewrite Hf; left).
  apply list_elem_of_filter in Hx as [Hx1 Hx]. exfalso. apply Hq.
  apply list_elem_of_fmap. by exists x.
Qed.

Lemma write_all_Permutation (ps ps' : list (Z * string)) (hm : gmap Z string) :
  ps ≡ₚ ps' → NoDup ps.*1 → write_all ps hm = write_all ps' hm.
Proof.
  intros Hperm Hnd. apply map_eq. intros p. rewrite !write_all_lookup.
  assert (filter (λ x, x.1 = p) ps = filter (λ x, x.1 = p) ps') as ->; [|done].
  pose proof (length_filter_fst_NoDup ps p Hnd) as Hlen.
  assert (filter (λ x, x.1 = p) ps ≡ₚ filter (λ x, x.1 = p) ps') as Hf
    by by rewrite Hperm.
  destruct (filter (λ x, x.1 = p) ps) as [|x [|y l]].
  - by apply Permutation_nil_l in Hf.
  - by apply Permutation_singleton_l in Hf.
  - simpl in Hlen. lia.
Qed.

(** X8.  The order in which nodes are given to [Add] does not matter
    as long as no two of the positions the call generates coincide: the
    resulting rings are equal. *)
Theorem Add_order_irrelevant (nodes nodes' : list string) (m : Map) :
  nodes ≡ₚ nodes' → NoDup (positions m nodes).*1 →
  Add nodes m = Add nodes' m.
Proof.
  intros Hperm Hnd.
  assert (positions m nodes ≡ₚ positions m nodes') as Hps.
  { unfold positions. by apply Permutation_flat_map. }
  rewrite !Add_eq. f_equal.
  - apply Ints_ext. by rewrite Hps.
  - by apply write_all_Permutation.
Qed.

Lemma Add_order_irrelevant_witness :
  ["6"; "4"; "2"]%string ≡ₚ ["2"; "4"; "6"]%string
  ∧ NoDup (positions (New examples.atoi 1 (Some examples.atoi))
                     ["6"; "4"; "2"]%string).*1
  ∧ Add ["6"; "4"; "2"]%string (New examples.atoi 1 (Some examples.atoi)) =
    Add ["2"; "4"; "6"]%string (New examples.atoi 1 (Some examples.atoi)).
Proof.
  assert (["6"; "4"; "2"]%string ≡ₚ ["2"; "4"; "6"]%string) as Hperm.
  { apply (Permutation_rev ["6"; "4"; "2"]%string). }
  assert (NoDup (positions (New examples.atoi 1 (Some examples.atoi))
                           ["6"; "4"; "2"]%string).*1) as Hnd.
  { apply (bool_decide_unpack _). by vm_compute. }
  split; [exact Hperm|]. split; [exact Hnd|].
  exact (Add_order_irrelevant _ _ _ Hperm Hnd).
Defined.

(** The examples of the specification on the ring with nodes at 2, 4, 6. *)
Example Get_ring246 :
  keys examples.ring246 = [2; 4; 6]
  ∧ Get examples.ring246 "2" = Some "2"%string
  ∧ Get examples.ring246 "11" = Some "2"%string
  ∧ Get examples.ring246 "23" = Some "2"%string
  ∧ Get examples.ring246 "5" = Some "6"%string.
Proof. by vm_compute. Qed.

End consistenthash_spec.


(** ** The LRU cache *)

Module lru_spec.
Import container_list lru.

Section cache.

Context {K : Type} `{Countable K} {V World : Type}.

Implicit Types (h : gmap Element (entry K V)) (l : List) (m : gmap K Element).
Implicit Types (σ : state K V World) (e : Element) (kv : entry K V).
Implicit Types (f : option (Callback K V World)) (snap es : list (entry K V)).
Implicit Types (w : World) (k : K) (v : V).

(** *** The entries of a list of elements *)

Lemma entries_cons_Some h e kv l :
  h !! e = Some kv → entries h (e :: l) = kv :: entries h l.
Proof. intros Hf. unfold entries. simpl. by rewrite Hf. Qed.

Lemma entries_cons_None h e l :
  h !! e = None → entries h (e :: l) = entries h l.
Proof. intros Hf. unfold entries. simpl. by rewrite Hf. Qed.

Lemma elem_of_entries h l kv :
  kv ∈ entries h l ↔ ∃ e, e ∈ l ∧ h !! e = Some kv.
Proof. apply list_elem_of_omap. Qed.

Lemma entries_ext h h' l :
  (∀ e, e ∈ l → h' !! e = h !! e) → entries h' l = entries h l.
Proof.
  intros Hext. apply list_omap_ext. induction l as [|e l IH]; constructor.
  - apply Hext. left.
  - apply IH. intros e' He'. apply Hext. by right.
Qed.

Lemma rep_empty h : rep h [] (∅ : gmap K Element).
Proof.
  split_and!; [constructor | by intros e ?%elem_of_nil | ].
  intros k e Hk. by rewrite lookup_empty in Hk.
Qed.

Lemma rep_heap_Some h l m e : rep h l m → e ∈ l → is_Some (h !! e).
Proof. intros (_ & Hl & _) He. destruct (Hl e He) as (kv & -> & _). eauto. Qed.

(** A newly allocated element is linked nowhere. *)
Lemma rep_fresh h l m : rep h l m → fresh (dom h) ∉ l.
Proof.
  intros Hrep He. apply (rep_heap_Some _ _ _ _ Hrep) in He.
  apply elem_of_dom in He. by apply is_fresh in He.
Qed.

Lemma rep_Forall2 h l m :
  rep h l m → Forall2 (λ e kv, h !! e = Some kv) l (entries h l).
Proof.
  intros (_ & Hl & _). induction l as [|e l IH]; [constructor|].
  destruct (Hl e) as (kv & Hkv & _); [left|].
  rewrite (entries_cons_Some _ _ _ _ Hkv).
  constructor; [done|]. apply IH. intros e' He'. apply Hl. by right.
Qed.

Lemma rep_length h l m : rep h l m → length (entries h l) = length l.
Proof. intros Hrep. symmetry. eapply Forall2_length, rep_Forall2, Hrep. Qed.

(** Two linked elements with the same key are the same element. *)
Lemma rep_key_inj h l m e1 e2 kv1 kv2 :
  rep h l m → e1 ∈ l → e2 ∈ l → h !! e1 = Some kv1 → h !! e2 = Some kv2 →
  key kv1 = key kv2 → e1 = e2.
Proof.
  intros (_ & Hl & _) He1 He2 H1 H2 Hk.
  destruct (Hl e1 He1) as (kv1' & H1' & Hm1), (Hl e2 He2) as (kv2' & H2' & Hm2).
  simplify_eq. rewrite Hk in Hm1. congruence.
Qed.

Lemma rep_lookup h l m k e :
  rep h l m →
  m !! k = Some e ↔ e ∈ l ∧ ∃ v, h !! e = Some (mkEntry k v).
Proof.
  intros (_ & Hl & Hm). split.
  - intros Hk. destruct (Hm k e Hk) as (He & [k' v] & Hkv & <-). eauto.
  - intros (He & v & Hv). destruct (Hl e He) as (kv & Hkv & Hmk). by simplify_eq.
Qed.

(** The keys of the recency order are exactly the keys of the map. *)
Lemma rep_elem_of_keys h l m k :
  rep h l m → k ∈ key <$> entries h l ↔ is_Some (m !! k).
Proof.
  intros Hrep. rewrite list_elem_of_fmap. split.
  - intros (kv & -> & (e & He & Hkv)%elem_of_entries).
    exists e. apply (rep_lookup _ _ _ _ _ Hrep). destruct kv. eauto.
  - intros [e (He & v & Hv)%(rep_lookup _ _ _ _ _ Hrep)].
    exists (mkEntry k v). split; [done|]. apply elem_of_entries. eauto.
Qed.

Lemma NoDup_keys_omap h l :
  NoDup l →
  (∀ e1 e2 kv1 kv2, e1 ∈ l → e2 ∈ l → h !! e1 = Some kv1 → h !! e2 = Some kv2 →
                    key kv1 = key kv2 → e1 = e2) →
  NoDup (key <$> entries h l).
Proof.
  induction 1 as [|e l He Hnd IH]; intros Hinj; [constructor|].
  assert (NoDup (key <$> entries h l)) as IH'.
  { apply IH. intros e1 e2 kv1 kv2 ? ?. apply Hinj; by right. }
  destruct (h !! e) as [kv|] eqn:Hkv.
  - rewrite (entries_cons_Some _ _ _ _ Hkv), fmap_cons. constructor; [|done].
    intros (kv' & Hk & (e' & He' & Hkv')%elem_of_entries)%list_elem_of_fmap.
    assert (e = e') as ->; [|done].
    apply (Hinj e e' kv kv'); [left | by right | done | done | done].
  - by rewrite (entries_cons_None _ _ _ Hkv).
Qed.

(** No key occurs twice in the recency order. *)
Lemma rep_NoDup_keys h l m : rep h l m → NoDup (key <$> entries h l).
Proof.
  intros Hrep. apply NoDup_keys_omap; [apply Hrep|].
  intros e1 e2 kv1 kv2. apply (rep_key_inj h l m), Hrep.
Qed.

Lemma rep_dom h l m :
  rep h l m → dom m = list_to_set (key <$> entries h l).
Proof.
  intros Hrep. apply set_eq. intros k.
  rewrite elem_of_dom, elem_of_list_to_set. symmetry. by apply rep_elem_of_keys.
Qed.

(** Filtering an element out of the list filters its key out of the
    recency order. *)
Lemma rep_omap_filter h l m e kv :
  rep h l m → e ∈ l → h !! e = Some kv →
  entries h (filter (λ x, x ≠ e) l) =
  filter (λ x, key x ≠ key kv) (entries h l).
Proof.
  intros Hrep He Hkv.
  assert (∀ e', e' ∈ l → ∃ kv', h !! e' = Some kv' ∧ (key kv' = key kv ↔ e' = e))
    as Hl.
  { intros e' He'. destruct (rep_heap_Some _ _ _ _ Hrep He') as [kv' Hkv'].
    exists kv'. split; [done|]. split; [|by intros; simplify_eq].
    intros Hk. by apply (rep_key_inj h l m e' e kv' kv). }
  clear Hrep He. induction l as [|e0 l IH]; [done|].
  destruct (Hl e0) as (kv0 & Hkv0 & Hiff); [left|].
  rewrite (entries_cons_Some _ _ _ _ Hkv0).
  assert (entries h (filter (λ x, x ≠ e) l) =
          filter (λ x, key x ≠ key kv) (entries h l)) as IH'.
  { apply IH. intros e' He'. apply Hl. by right. }
  destruct (decide (e0 = e)) as [Heq|Hne].
  - rewrite (filter_cons_False (λ x, x ≠ e)) by (intros Hn; by apply Hn).
    rewrite (filter_cons_False (λ x, key x ≠ key kv)); [done|].
    intros Hn. apply Hn. by apply Hiff.
  - rewrite (filter_cons_True (λ x, x ≠ e)) by done.
    rewrite (filter_cons_True (λ x, key x ≠ key kv)) by (by rewrite Hiff).
    by rewrite (entries_cons_Some _ _ _ _ Hkv0), IH'.
Qed.

(** *** The list operations keep the representation *)

Lemma elem_of_Remove e e' l : e' ∈ container_list.Remove e l ↔ e' ∈ l ∧ e' ≠ e.
Proof. unfold container_list.Remove. rewrite list_elem_of_filter. tauto. Qed.

Lemma rep_Remove h l m e kv :
  rep h l m → e ∈ l → h !! e = Some kv →
  rep h (container_list.Remove e l) (delete (key kv) m).
Proof.
  intros Hrep He Hkv. pose proof Hrep as (Hnd & Hl & Hm). split_and!.
  - by apply NoDup_filter.
  - intros e' [He' Hne]%elem_of_Remove.
    destruct (Hl e' He') as (kv' & Hkv' & Hmk). exists kv'. split; [done|].
    rewrite lookup_delete_ne; [done|]. intros Hk. apply Hne.
    by apply (rep_key_inj h l m e' e kv' kv).
  - intros k e' [Hk Hmk]%lookup_delete_Some.
    destruct (Hm k e' Hmk) as (He' & kv' & Hkv' & Hkey).
    split; [|by eauto]. apply elem_of_Remove. split; [done|].
    intros ->. by simplify_eq.
Qed.

Lemma elem_of_MoveToFront e e' l : e' ∈ MoveToFront e l ↔ e' ∈ l.
Proof.
  unfold MoveToFront. case_decide as He; [|done].
  rewrite elem_of_cons, list_elem_of_filter.
  destruct (decide (e' = e)) as [->|Hne]; [tauto|]. tauto.
Qed.

Lemma NoDup_MoveToFront e l : NoDup l → NoDup (MoveToFront e l).
Proof.
  intros Hnd. unfold MoveToFront. case_decide as He; [|done].
  constructor; [|by apply NoDup_filter].
  rewrite list_elem_of_filter. intros [Hne _]. by apply Hne.
Qed.

Lemma rep_MoveToFront h l m e : rep h l m → rep h (MoveToFront e l) m.
Proof.
  intros (Hnd & Hl & Hm). split_and!.
  - by apply NoDup_MoveToFront.
  - intros e' He'%elem_of_MoveToFront. by apply Hl.
  - intros k e' Hk. rewrite elem_of_MoveToFront. by apply Hm.
Qed.

Lemma entries_MoveToFront h l m e kv :
  rep h l m → e ∈ l → h !! e = Some kv →
  entries h (MoveToFront e l) =
  kv :: filter (λ x, key x ≠ key kv) (entries h l).
Proof.
  intros Hrep He Hkv. unfold MoveToFront. rewrite decide_True by done.
  rewrite (entries_cons_Some _ _ _ _ Hkv).
  by rewrite (rep_omap_filter h l m e kv).
Qed.

(** Assigning to the value of an entry keeps its key. *)
Lemma rep_set_value h l m e kv v :
  rep h l m → h !! e = Some kv → rep (<[e := set_value kv v]> h) l m.
Proof.
  intros (Hnd & Hl & Hm) Hkv. split_and!; [done| |].
  - intros e' He'. destruct (Hl e' He') as (kv' & Hkv' & Hmk).
    destruct (decide (e' = e)) as [->|Hne].
    + exists (set_value kv v). rewrite lookup_insert_eq. by simplify_eq.
    + exists kv'. by rewrite lookup_insert_ne.
  - intros k e' Hk. destruct (Hm k e' Hk) as (He' & kv' & Hkv' & Hkey).
    split; [done|]. destruct (decide (e' = e)) as [->|Hne].
    + exists (set_value kv v). rewrite lookup_insert_eq. by simplify_eq.
    + exists kv'. by rewrite lookup_insert_ne.
Qed.

Lemma entries_insert_notin h l e kv :
  e ∉ l → entries (<[e := kv]> h) l = entries h l.
Proof.
  intros He. apply entries_ext. intros e' He'.
  apply lookup_insert_ne. by intros ->.
Qed.

Lemma entries_set_value_MoveToFront h l m e kv v :
  rep h l m → e ∈ l → h !! e = Some kv →
  entries (<[e := set_value kv v]> h) (MoveToFront e l) =
  set_value kv v :: filter (λ x, key x ≠ key kv) (entries h l).
Proof.
  intros Hrep He Hkv. unfold MoveToFront. rewrite decide_True by done.
  rewrite (entries_cons_Some _ _ (set_value kv v)) by apply lookup_insert_eq.
  f_equal. rewrite entries_insert_notin.
  - by apply (rep_omap_filter h l m).
  - rewrite list_elem_of_filter. intros [Hne _]. by apply Hne.
Qed.

(** Linking a newly allocated element for a key the map does not have. *)
Lemma rep_PushFront h l m k v :
  rep h l m → m !! k = None →
  rep (<[fresh (dom h) := mkEntry k v]> h) (fresh (dom h) :: l)
      (<[k := fresh (dom h)]> m).
Proof.
  intros Hrep Hk. pose proof (rep_fresh _ _ _ Hrep) as Hfresh.
  destruct Hrep as (Hnd & Hl & Hm). set (e := fresh (dom h)) in *. split_and!.
  - by constructor.
  - intros e' [->|He']%elem_of_cons.
    + exists (mkEntry k v). by rewrite !lookup_insert_eq.
    + destruct (Hl e' He') as (kv' & Hkv' & Hmk). exists kv'.
      assert (e' ≠ e) by (by intros ->).
      rewrite lookup_insert_ne by done. split; [done|].
      rewrite lookup_insert_ne; [done|]. intros Hkey. congruence.
  - intros k' e' [[-> ->]|[Hne Hmk]]%lookup_insert_Some.
    + split; [left|]. exists (mkEntry k' v). by rewrite lookup_insert_eq.
    + destruct (Hm k' e' Hmk) as (He' & kv' & Hkv' & Hkey).
      split; [by right|]. exists kv'. split; [|done].
      rewrite lookup_insert_ne; [done|]. by intros <-.
Qed.

Lemma entries_PushFront h l m k v :
  rep h l m →
  entries (<[fresh (dom h) := mkEntry k v]> h) (fresh (dom h) :: l) =
  mkEntry k v :: entries h l.
Proof.
  intros Hrep.
  rewrite (entries_cons_Some _ _ (mkEntry k v)) by apply lookup_insert_eq.
  f_equal. apply entries_insert_notin. by eapply rep_fresh.
Qed.

(** The back of the list carries the last entry of the recency order. *)
Lemma rep_Back h l m e :
  rep h l m → Back l = Some e →
  e ∈ l ∧ ∃ kv, h !! e = Some kv ∧ last (entries h l) = Some kv.
Proof.
  intros Hrep [l' ->]%last_Some.
  assert (e ∈ l' ++ [e]) as He by (apply elem_of_app; right; left).
  split; [done|]. destruct (rep_heap_Some _ _ _ _ Hrep He) as [kv Hkv].
  exists kv. split; [done|]. unfold entries. rewrite omap_app.
  fold (entries h l') (entries h [e]).
  rewrite (entries_cons_Some _ _ _ _ Hkv). apply last_snoc.
Qed.

Lemma rep_Back_None h l m : rep h l m → Back l = None ↔ entries h l = [].
Proof.
  intros Hrep. unfold Back. rewrite last_None.
  rewrite <- !length_zero_iff_nil, (rep_length h l m) by done. done.
Qed.

(** Removing the key of the last entry removes the last entry. *)
Lemma filter_last_key es kv :
  NoDup (key <$> es) → last es = Some kv →
  filter (λ x, key x ≠ key kv) es = removelast es.
Proof.
  intros Hnd [es' ->]%last_Some. rewrite removelast_last, filter_app.
  rewrite fmap_app in Hnd. apply NoDup_app in Hnd as (_ & Hdisj & _).
  rewrite (filter_cons_False (λ x, key x ≠ key kv)) by (intros Hn; by apply Hn).
  rewrite filter_nil, app_nil_r.
  induction es' as [|x es' IH]; [done|].
  rewrite filter_cons_True.
  - f_equal. apply IH. intros k Hk. apply Hdisj. rewrite fmap_cons. by right.
  - intros Hk. apply (Hdisj (key x)); [rewrite fmap_cons; left|].
    rewrite Hk. simpl. left.
Qed.

(** *** The callback *)

Lemma evicted_c kv σ : c (evicted kv σ) = c σ.
Proof. unfold evicted. by destruct (OnEvicted (c σ)). Qed.

Lemma evicted_heap kv σ : heap (evicted kv σ) = heap σ.
Proof. unfold evicted. by destruct (OnEvicted (c σ)). Qed.

Lemma evicted_order kv σ : order (evicted kv σ) = order σ.
Proof. unfold order. by rewrite evicted_c, evicted_heap. Qed.

Lemma evicted_index kv σ : index (evicted kv σ) = index σ.
Proof. unfold index. by rewrite evicted_c. Qed.

Lemma evicted_world kv σ :
  world (evicted kv σ) = called (OnEvicted (c σ)) (order σ) [kv] (world σ).
Proof. unfold evicted, called. by destruct (OnEvicted (c σ)). Qed.

Lemma evicted_wf kv σ : wf (evicted kv σ) ↔ wf σ.
Proof. unfold wf. by rewrite evicted_c, evicted_heap. Qed.

Lemma called_app f snap es1 es2 w :
  called f snap (es1 ++ es2) w = called f snap es2 (called f snap es1 w).
Proof. destruct f; [apply fold_left_app | done]. Qed.

Lemma called_nil f snap w : called f snap [] w = w.
Proof. by destruct f. Qed.

(** *** The two shapes of a well-formed state *)

Lemma wf_cases σ :
  wf σ →
  (ll (c σ) = None ∧ cache (c σ) = None)
  ∨ (∃ l m, ll (c σ) = Some l ∧ cache (c σ) = Some m ∧ rep (heap σ) l m).
Proof.
  unfold wf. destruct (ll (c σ)) as [l|], (cache (c σ)) as [m|]; try done.
  - right. eauto.
  - by left.
Qed.

Lemma wf_live σ l m :
  ll (c σ) = Some l → cache (c σ) = Some m → wf σ ↔ rep (heap σ) l m.
Proof. unfold wf. by intros -> ->. Qed.

Lemma wf_nil σ : ll (c σ) = None → cache (c σ) = None → wf σ.
Proof. unfold wf. by intros -> ->. Qed.

Lemma order_live σ l : ll (c σ) = Some l → order σ = entries (heap σ) l.
Proof. unfold order. by intros ->. Qed.

Lemma index_live σ m : cache (c σ) = Some m → index σ = m.
Proof. unfold index. by intros ->. Qed.

Lemma index_None_cache σ : cache (c σ) = None → index σ = ∅.
Proof. unfold index. by intros ->. Qed.

Lemma order_None_ll σ : ll (c σ) = None → order σ = [].
Proof. unfold order. by intros ->. Qed.

(** In a well-formed state the keys of the recency order are distinct
    and are the keys of the index. *)
Lemma wf_NoDup_keys σ : wf σ → NoDup (order_keys σ).
Proof.
  intros [[Hl Hm]|(l & m & Hl & Hm & Hrep)]%wf_cases; unfold order_keys.
  - rewrite (order_None_ll _ Hl). constructor.
  - rewrite (order_live _ _ Hl). by eapply rep_NoDup_keys.
Qed.

Lemma wf_dom σ : wf σ → dom (index σ) = list_to_set (order_keys σ).
Proof.
  intros [[Hl Hm]|(l & m & Hl & Hm & Hrep)]%wf_cases; unfold order_keys.
  - rewrite (order_None_ll _ Hl), (index_None_cache _ Hm). simpl. apply dom_empty_L.
  - rewrite (order_live _ _ Hl), (index_live _ _ Hm). by eapply rep_dom.
Qed.

(** The entry the index leads to for a key is in the recency order. *)
Lemma wf_index_order σ k e :
  wf σ → index σ !! k = Some e →
  ∃ v, heap σ !! e = Some (mkEntry k v) ∧ mkEntry k v ∈ order σ.
Proof.
  intros [[Hl Hm]|(l & m & Hl & Hm & Hrep)]%wf_cases.
  - rewrite (index_None_cache _ Hm), lookup_empty. done.
  - rewrite (index_live _ _ Hm), (order_live _ _ Hl).
    intros (He & v & Hv)%(rep_lookup _ _ _ _ _ Hrep). exists v.
    split; [done|]. apply elem_of_entries. eauto.
Qed.

Lemma wf_order_index σ kv :
  wf σ → kv ∈ order σ → is_Some (index σ !! key kv).
Proof.
  intros [[Hl Hm]|(l & m & Hl & Hm & Hrep)]%wf_cases.
  - rewrite (order_None_ll _ Hl). by intros ?%elem_of_nil.
  - rewrite (index_live _ _ Hm), (order_live _ _ Hl). intros Hkv.
    apply (rep_elem_of_keys _ _ _ _ Hrep), list_elem_of_fmap. eauto.
Qed.

(** The entry of a key in the recency order is unique. *)
Lemma wf_order_unique σ kv1 kv2 :
  wf σ → kv1 ∈ order σ → kv2 ∈ order σ → key kv1 = key kv2 → kv1 = kv2.
Proof.
  intros Hwf H1 H2 Hk. pose proof (wf_NoDup_keys _ Hwf) as Hnd.
  unfold order_keys in Hnd.
  apply list_elem_of_lookup in H1 as [i Hi], H2 as [j Hj].
  assert (i = j) as ->; [|congruence].
  eapply NoDup_lookup; [exact Hnd| |]; rewrite list_lookup_fmap.
  - by rewrite Hi.
  - rewrite Hj. simpl. by rewrite Hk.
Qed.

(** *** The methods, one by one *)

Lemma removeElement_spec σ l m e kv :
  ll (c σ) = Some l → cache (c σ) = Some m → rep (heap σ) l m →
  e ∈ l → heap σ !! e = Some kv →
  ∃ σ', removeElement e σ = Some σ' ∧ removed kv σ σ' ∧ wf σ'.
Proof.
  destruct σ as [[mx f ol om] h w]. simpl. intros -> -> Hrep He Hkv.
  eexists. split.
  { unfold removeElement. simpl. rewrite Hkv. simpl. reflexivity. }
  pose proof (rep_Remove _ _ _ _ _ Hrep He Hkv) as Hrep'.
  split; [|by apply evicted_wf].
  unfold removed, same_config. rewrite evicted_c, evicted_heap, evicted_order,
    evicted_index, evicted_world. simpl. split_and!; try done.
  unfold order. simpl. by apply (rep_omap_filter h l m).
Qed.

Lemma Remove_absent σ k : index σ !! k = None → Remove k σ = Some σ.
Proof.
  unfold index, Remove. destruct (cache (c σ)) as [m|]; simpl; [|done].
  by intros ->.
Qed.

Lemma Remove_present σ k e :
  wf σ → index σ !! k = Some e →
  ∃ v σ', mkEntry k v ∈ order σ ∧ Remove k σ = Some σ'
          ∧ removed (mkEntry k v) σ σ' ∧ wf σ'.
Proof.
  intros Hwf Hk. destruct (wf_index_order _ _ _ Hwf Hk) as (v & Hv & Hin).
  destruct (wf_cases _ Hwf) as [[Hl Hm]|(l & m & Hl & Hm & Hrep)].
  { by rewrite (index_None_cache _ Hm), lookup_empty in Hk. }
  rewrite (index_live _ _ Hm) in Hk.
  apply (rep_lookup _ _ _ _ _ Hrep) in Hk as Hk'. destruct Hk' as [He _].
  destruct (removeElement_spec σ l m e _ Hl Hm Hrep He Hv) as (σ' & Hr & Hrm & Hwf').
  exists v, σ'. split_and!; try done.
  unfold Remove. by rewrite Hm, Hk.
Qed.

Lemma RemoveOldest_empty σ : wf σ → order σ = [] → RemoveOldest σ = Some σ.
Proof.
  intros [[Hl Hm]|(l & m & Hl & Hm & Hrep)]%wf_cases Ho; unfold RemoveOldest.
  - by rewrite Hm.
  - rewrite Hm, Hl. simpl. rewrite (order_live _ _ Hl) in Ho.
    apply (rep_Back_None _ _ _ Hrep) in Ho. by rewrite Ho.
Qed.

Lemma RemoveOldest_last σ kv :
  wf σ → last (order σ) = Some kv →
  ∃ σ', RemoveOldest σ = Some σ' ∧ removed kv σ σ'
        ∧ order σ' = removelast (order σ) ∧ wf σ'.
Proof.
  intros Hwf Hlast. pose proof (wf_NoDup_keys _ Hwf) as Hnd.
  destruct (wf_cases _ Hwf) as [[Hl Hm]|(l & m & Hl & Hm & Hrep)].
  { by rewrite (order_None_ll _ Hl) in Hlast. }
  destruct (Back l) as [e|] eqn:Hback.
  2: { apply (rep_Back_None _ _ _ Hrep) in Hback.
       by rewrite (order_live _ _ Hl), Hback in Hlast. }
  destruct (rep_Back _ _ _ _ Hrep Hback) as (He & kv' & Hkv' & Hlast').
  rewrite (order_live _ _ Hl) in Hlast. simplify_eq.
  destruct (removeElement_spec σ l m e _ Hl Hm Hrep He Hkv') as (σ' & Hr & Hrm & Hwf').
  exists σ'. split_and!; try done.
  - unfold RemoveOldest. rewrite Hm, Hl. simpl. by rewrite Hback.
  - destruct Hrm as (_ & _ & -> & _). apply filter_last_key; [done|].
    by rewrite (order_live _ _ Hl).
Qed.

Lemma Len_order σ : wf σ → Len σ = Some (Z.of_nat (length (order σ))).
Proof.
  intros [[Hl Hm]|(l & m & Hl & Hm & Hrep)]%wf_cases; unfold Len.
  - by rewrite Hm, (order_None_ll _ Hl).
  - rewrite Hm, Hl, (order_live _ _ Hl). simpl. unfold container_list.Len.
    by rewrite (rep_length _ _ _ Hrep).
Qed.

Lemma Get_miss σ k : index σ !! k = None → Get k σ = Some (None, false, σ).
Proof.
  unfold index, Get. destruct (cache (c σ)) as [m|]; simpl; [|done].
  by intros ->.
Qed.

Lemma Get_hit σ k e :
  wf σ → index σ !! k = Some e →
  ∃ v σ', mkEntry k v ∈ order σ ∧ Get k σ = Some (Some v, true, σ')
          ∧ touched (mkEntry k v) σ σ' ∧ heap σ' = heap σ ∧ wf σ'.
Proof.
  intros Hwf Hk. destruct (wf_index_order _ _ _ Hwf Hk) as (v & Hv & Hin).
  destruct (wf_cases _ Hwf) as [[Hl Hm]|(l & m & Hl & Hm & Hrep)].
  { by rewrite (index_None_cache _ Hm), lookup_empty in Hk. }
  rewrite (index_live _ _ Hm) in Hk.
  apply (rep_lookup _ _ _ _ _ Hrep) in Hk as Hk'. destruct Hk' as [He _].
  exists v. eexists. split; [done|]. split.
  { unfold Get. rewrite Hm, Hk, Hl. simpl. rewrite Hv. simpl. reflexivity. }
  split_and!; [| done |].
  - unfold touched, same_config, order, index. simpl. rewrite Hl, Hm. simpl.
    split_and!; try done.
    by apply (entries_MoveToFront _ _ m).
  - unfold wf. simpl. by apply rep_MoveToFront.
Qed.

Lemma wf_rep σ : wf σ → rep (heap σ) (default [] (ll (c σ))) (index σ).
Proof.
  intros [[Hl Hm]|(l & m & Hl & Hm & Hrep)]%wf_cases; unfold index.
  - rewrite Hl, Hm. apply rep_empty.
  - by rewrite Hl, Hm.
Qed.

(** [Add] starts by making a nil list and map empty ones. *)
Lemma Add_unfold σ k v :
  wf σ →
  Add k v σ =
  let l := default [] (ll (c σ)) in
  match index σ !! k with
  | Some ee =>
      kv ← heap σ !! ee;
      Some {| c := {| MaxEntries := MaxEntries (c σ);
                      OnEvicted := OnEvicted (c σ);
                      ll := Some (MoveToFront ee l);
                      cache := Some (index σ) |};
              heap := <[ee := set_value kv v]> (heap σ);
              world := world σ |}
  | None =>
      let σ1 := {| c := {| MaxEntries := MaxEntries (c σ);
                           OnEvicted := OnEvicted (c σ);
                           ll := Some (fresh (dom (heap σ)) :: l);
                           cache := Some (<[k := fresh (dom (heap σ))]> (index σ)) |};
                   heap := <[fresh (dom (heap σ)) := mkEntry k v]> (heap σ);
                   world := world σ |} in
      if bool_decide (MaxEntries (c σ) ≠ 0)
         && bool_decide (container_list.Len (fresh (dom (heap σ)) :: l) > MaxEntries (c σ))
      then RemoveOldest σ1 else Some σ1
  end.
Proof.
  destruct σ as [[mx f ol om] h w].
  intros [[Hl Hm]|(l & m & Hl & Hm & Hrep)]%wf_cases; simpl in *; subst;
    unfold Add, index; simpl; by destruct (_ !! k).
Qed.

Lemma Add_present σ k v e :
  wf σ → index σ !! k = Some e →
  ∃ v0 σ', mkEntry k v0 ∈ order σ ∧ Add k v σ = Some σ'
           ∧ touched (mkEntry k v) σ σ'
           ∧ heap σ' = <[e := mkEntry k v]> (heap σ) ∧ wf σ'.
Proof.
  intros Hwf Hk. destruct (wf_index_order _ _ _ Hwf Hk) as (v0 & Hv0 & Hin).
  pose proof (wf_rep _ Hwf) as Hrep.
  apply (rep_lookup _ _ _ _ _ Hrep) in Hk as Hk'. destruct Hk' as [He _].
  exists v0. eexists. split; [done|]. split.
  { rewrite Add_unfold by done. simpl. rewrite Hk, Hv0. simpl. reflexivity. }
  split_and!; [| done |].
  - unfold touched, same_config. split_and!; try done.
    etrans; [exact (entries_set_value_MoveToFront _ _ _ _ _ v Hrep He Hv0)|done].
  - unfold wf. simpl. by apply rep_MoveToFront, rep_set_value.
Qed.

Lemma Add_absent σ k v :
  wf σ → index σ !! k = None →
  ∃ σ1, inserted (fresh (dom (heap σ))) (mkEntry k v) σ σ1 ∧ wf σ1
        ∧ Add k v σ =
            if bool_decide (MaxEntries (c σ) ≠ 0)
               && bool_decide (Z.of_nat (length (order σ1)) > MaxEntries (c σ))
            then RemoveOldest σ1 else Some σ1.
Proof.
  intros Hwf Hk. pose proof (wf_rep _ Hwf) as Hrep.
  pose proof (rep_PushFront _ _ _ k v Hrep Hk) as Hrep1.
  pose proof (entries_PushFront _ _ _ k v Hrep) as Hent.
  set (σ1 := {| c := {| MaxEntries := MaxEntries (c σ);
                        OnEvicted := OnEvicted (c σ);
                        ll := Some (fresh (dom (heap σ)) :: default [] (ll (c σ)));
                        cache := Some (<[k := fresh (dom (heap σ))]> (index σ)) |};
                heap := <[fresh (dom (heap σ)) := mkEntry k v]> (heap σ);
                world := world σ |}).
  assert (order σ1 = mkEntry k v :: order σ) as Ho by exact Hent.
  exists σ1. split_and!.
  - unfold inserted, same_config. split_and!; try done.
    apply not_elem_of_dom, is_fresh.
  - exact Hrep1.
  - rewrite Add_unfold by done. cbn zeta. rewrite Hk. fold σ1.
    rewrite Ho. unfold container_list.Len. cbn [length].
    unfold order. by rewrite (rep_length _ _ _ Hrep).
Qed.

(** *** Clear *)

(** The elements of the map, in any order, are those of the list. *)
Lemma rep_map_to_list h l m : rep h l m → (map_to_list m).*2 ≡ₚ l.
Proof.
  intros Hrep. pose proof Hrep as (Hnd & Hl & Hm).
  apply NoDup_Permutation; [|done|].
  - apply NoDup_fmap_2_strong; [|apply NoDup_map_to_list].
    intros [k1 e1] [k2 e2] H1%elem_of_map_to_list H2%elem_of_map_to_list Heq.
    simpl in Heq. subst e2.
    destruct (Hm _ _ H1) as (_ & kv1 & Hkv1 & <-).
    destruct (Hm _ _ H2) as (_ & kv2 & Hkv2 & <-). by simplify_eq.
  - intros e. rewrite list_elem_of_fmap. split.
    + intros ([k e'] & -> & Hke%elem_of_map_to_list). by apply (Hm k).
    + intros He. destruct (Hl e He) as (kv & _ & Hmk).
      exists (key kv, e). split; [done|]. by apply elem_of_map_to_list.
Qed.

Lemma Clear_loop_spec (kes : list (K * Element)) σ :
  (∀ e, e ∈ kes.*2 → is_Some (heap σ !! e)) →
  ∃ σ', Clear_loop kes σ = Some σ' ∧ c σ' = c σ ∧ heap σ' = heap σ
        ∧ world σ' =
            called (OnEvicted (c σ)) (order σ) (entries (heap σ) kes.*2) (world σ).
Proof.
  revert σ. induction kes as [|[k e] kes IH]; intros σ Hall.
  - exists σ. by rewrite called_nil.
  - destruct (Hall e) as [kv Hkv]; [left|].
    destruct (IH (evicted kv σ)) as (σ' & Hloop & Hc & Hh & Hw).
    { intros e' He'. rewrite evicted_heap. apply Hall. by right. }
    exists σ'. cbn [Clear_loop]. rewrite Hkv. cbn [mbind option_bind].
    rewrite Hloop, Hc, Hh, Hw, evicted_c, evicted_heap, evicted_order, evicted_world.
    split_and!; try done.
    rewrite fmap_cons. cbn [snd]. rewrite (entries_cons_Some _ _ _ _ Hkv).
    symmetry. apply (called_app _ _ [kv]).
Qed.

Lemma Clear_spec (range : gmap K Element → list (K * Element)) σ :
  wf σ → range (index σ) ≡ₚ map_to_list (index σ) →
  ∃ σ' es, Clear range σ = Some σ'
    ∧ es ≡ₚ order σ
    ∧ world σ' = called (OnEvicted (c σ)) (order σ) es (world σ)
    ∧ same_config σ σ' ∧ heap σ' = heap σ
    ∧ ll (c σ') = None ∧ cache (c σ') = None.
Proof.
  intros Hwf Hrange. pose proof (wf_rep _ Hwf) as Hrep.
  assert ((range (index σ)).*2 ≡ₚ default [] (ll (c σ))) as Hperm.
  { rewrite Hrange. by eapply rep_map_to_list. }
  destruct (Clear_loop_spec (range (index σ)) σ) as (σ1 & Hloop & Hc & Hh & Hw).
  { intros e He. rewrite Hperm in He. by eapply rep_heap_Some. }
  exists {| c := {| MaxEntries := MaxEntries (c σ); OnEvicted := OnEvicted (c σ);
                    ll := None; cache := None |};
            heap := heap σ;
            world := called (OnEvicted (c σ)) (order σ)
                            (entries (heap σ) (range (index σ)).*2) (world σ) |},
         (entries (heap σ) (range (index σ)).*2).
  split_and!; try done.
  - unfold Clear. fold (index σ). destruct (OnEvicted (c σ)) as [g|] eqn:Hg.
    + rewrite Hloop. simpl. by rewrite Hc, Hh, Hw, Hg.
    + simpl. by rewrite Hg.
  - unfold order, entries. by rewrite Hperm.
Qed.

(** *** Every call succeeds and keeps the invariants *)

Lemma removed_length kv σ σ' :
  removed kv σ σ' → (length (order σ') ≤ length (order σ))%nat.
Proof. intros (_ & _ & -> & _). apply length_filter. Qed.

Lemma touched_length kv σ σ' :
  touched kv σ σ' → (∃ kv', kv' ∈ order σ ∧ key kv' = key kv) →
  (length (order σ') ≤ length (order σ))%nat.
Proof.
  intros (_ & -> & _) (kv' & Hin & Hk). simpl.
  apply (length_filter_lt (λ x, key x ≠ key kv) _ kv' Hin). by intros Hn.
Qed.

Lemma bounded_le σ σ' :
  MaxEntries (c σ') = MaxEntries (c σ) →
  (length (order σ') ≤ length (order σ))%nat →
  bounded σ → bounded σ'.
Proof. unfold bounded. intros -> Hle Hb Hpos. specialize (Hb Hpos). lia. Qed.

Lemma length_removelast_pred {A} (xs : list A) :
  length (removelast xs) = pred (length xs).
Proof.
  destruct (last xs) as [x|] eqn:Hx.
  - apply last_Some in Hx as [xs' ->].
    rewrite removelast_last, length_app. simpl. lia.
  - apply last_None in Hx as ->. done.
Qed.

Lemma Add_wf σ k v :
  wf σ →
  ∃ σ', Add k v σ = Some σ' ∧ wf σ' ∧ same_config σ σ' ∧ (bounded σ → bounded σ').
Proof.
  intros Hwf. destruct (index σ !! k) as [e|] eqn:Hk.
  - destruct (Add_present σ k v e Hwf Hk) as (v0 & σ' & Hin & HAdd & Ht & _ & Hwf').
    exists σ'. split_and!; [done | done | apply Ht |].
    apply bounded_le; [apply Ht|]. eapply touched_length; [done|]. eauto.
  - destruct (Add_absent σ k v Hwf Hk) as (σ1 & Hins & Hwf1 & ->).
    pose proof Hins as ([Hmx Hf] & _ & _ & Ho & _).
    destruct (decide (MaxEntries (c σ) ≠ 0)) as [Hne|Hz];
      [rewrite (bool_decide_eq_true_2 _ Hne) | rewrite (bool_decide_eq_false_2 _ Hz)];
      cbn [andb].
    2: { exists σ1. split_and!; [done | done | done |].
         unfold bounded. rewrite Hmx. lia. }
    destruct (decide (Z.of_nat (length (order σ1)) > MaxEntries (c σ))) as [Hgt|Hle];
      [rewrite (bool_decide_eq_true_2 _ Hgt) | rewrite (bool_decide_eq_false_2 _ Hle)].
    + destruct (last (order σ1)) as [kv|] eqn:Hlast.
      2: { apply last_None in Hlast. by rewrite Ho in Hlast. }
      destruct (RemoveOldest_last σ1 kv Hwf1 Hlast) as (σ' & HR & Hrm & Ho' & Hwf').
      exists σ'. pose proof Hrm as ([Hmx' Hf'] & _).
      split_and!; [done | done | split; congruence |].
      unfold bounded. rewrite Ho', Hmx', Hmx, length_removelast_pred, Ho. simpl. lia.
    + exists σ1. split_and!; [done | done | done |].
      unfold bounded. rewrite Hmx. lia.
Qed.

Lemma exec_wf (o : call K V World) σ :
  wf σ → fair o →
  ∃ σ', exec o σ = Some σ' ∧ wf σ'
        ∧ MaxEntries (c σ') = MaxEntries (c σ) ∧ (bounded σ → bounded σ').
Proof.
  intros Hwf Hfair. destruct o as [k v|k|k| | |range|f]; simpl.
  - destruct (Add_wf σ k v Hwf) as (σ' & ? & ? & [? ?] & ?). by exists σ'.
  - destruct (index σ !! k) as [e|] eqn:Hk.
    + destruct (Get_hit σ k e Hwf Hk) as (v & σ' & Hin & -> & Ht & _ & Hwf').
      exists σ'. split_and!; [done | done | apply Ht |].
      apply bounded_le; [apply Ht|]. eapply touched_length; [done|]. eauto.
    + rewrite (Get_miss σ k Hk). by exists σ.
  - destruct (index σ !! k) as [e|] eqn:Hk.
    + destruct (Remove_present σ k e Hwf Hk) as (v & σ' & Hin & -> & Hrm & Hwf').
      exists σ'. split_and!; [done | done | apply Hrm |].
      apply bounded_le; [apply Hrm|]. by eapply removed_length.
    + rewrite (Remove_absent σ k Hk). by exists σ.
  - destruct (last (order σ)) as [kv|] eqn:Hlast.
    + destruct (RemoveOldest_last σ kv Hwf Hlast) as (σ' & -> & Hrm & _ & Hwf').
      exists σ'. split_and!; [done | done | apply Hrm |].
      apply bounded_le; [apply Hrm|]. by eapply removed_length.
    + apply last_None in Hlast. rewrite (RemoveOldest_empty σ Hwf Hlast). by exists σ.
  - rewrite (Len_order σ Hwf). by exists σ.
  - destruct (Clear_spec range σ Hwf (Hfair _)) as (σ' & es & -> & _ & _ & [Hmx _] & _ & Hl & Hm).
    exists σ'. split_and!; [done | by apply wf_nil | done |].
    unfold bounded. rewrite (order_None_ll _ Hl). simpl. lia.
  - eexists. split_and!; [done | exact Hwf | done | done].
Qed.

Lemma run_wf (os : list (call K V World)) σ :
  wf σ → Forall fair os →
  ∃ σ', run os σ = Some σ' ∧ wf σ'
        ∧ MaxEntries (c σ') = MaxEntries (c σ) ∧ (bounded σ → bounded σ').
Proof.
  intros Hwf Hfair. revert σ Hwf.
  induction Hfair as [|o os Ho Hos IH]; intros σ Hwf; [by exists σ|].
  destruct (exec_wf o σ Hwf Ho) as (σ1 & Hexec & Hwf1 & Hmx1 & Hb1).
  destruct (IH σ1 Hwf1) as (σ' & Hrun & Hwf' & Hmx' & Hb').
  exists σ'. simpl. rewrite Hexec. simpl.
  split_and!; [done | done | congruence | auto].
Qed.

Lemma New_wf n f h w :
  wf {| c := set_OnEvicted f (New n); heap := h; world := w |}
  ∧ bounded {| c := set_OnEvicted f (New n); heap := h; world := w |}.
Proof. split; [apply rep_empty|]. unfold bounded. simpl. lia. Qed.

(** *** Single calls *)

(** C5.  In a well-formed cache, [Get key] on a key of the index
    returns the value stored for the key and [true], and moves the
    entry of the key to the front of the recency order, leaving the
    other entries, the index, the configuration and the world of the
    callback alone; [Get key] on any other key returns [(nil, false)]
    and the state it was called in, so that nothing has changed and no
    callback has run. *)
Theorem Get_hit_or_miss σ k :
  wf σ →
  (∀ e, index σ !! k = Some e →
     ∃ v σ', mkEntry k v ∈ order σ
             ∧ Get k σ = Some (Some v, true, σ')
             ∧ touched (mkEntry k v) σ σ'
             ∧ wf σ')
  ∧ (index σ !! k = None → Get k σ = Some (None, false, σ)).
Proof.
  intros Hwf. split.
  - intros e Hk.
    destruct (Get_hit σ k e Hwf Hk) as (v & σ' & Hin & HGet & Ht & _ & Hwf').
    by exists v, σ'.
  - apply Get_miss.
Qed.

(** C6.  In a well-formed cache, [Remove key] on a key of the index
    detaches the entry of the key from the recency order and from the
    index and then calls the callback, if any, once with the key and
    its stored value, after which [Get key] misses; [Remove key] on any
    other key returns the state unchanged.  [RemoveOldest] does the
    same to the last entry of the recency order, and returns the state
    unchanged when the recency order is empty. *)
Theorem Remove_and_RemoveOldest σ k :
  wf σ →
  (∀ e, index σ !! k = Some e →
     ∃ v σ', mkEntry k v ∈ order σ
             ∧ Remove k σ = Some σ'
             ∧ removed (mkEntry k v) σ σ'
             ∧ Get k σ' = Some (None, false, σ')
             ∧ wf σ')
  ∧ (index σ !! k = None → Remove k σ = Some σ)
  ∧ (∀ kv, last (order σ) = Some kv →
       ∃ σ', RemoveOldest σ = Some σ'
             ∧ removed kv σ σ'
             ∧ order σ' = removelast (order σ)
             ∧ wf σ')
  ∧ (order σ = [] → RemoveOldest σ = Some σ).
Proof.
  intros Hwf. split_and!.
  - intros e Hk.
    destruct (Remove_present σ k e Hwf Hk) as (v & σ' & Hin & HR & Hrm & Hwf').
    exists v, σ'. split_and!; try done.
    apply Get_miss. destruct Hrm as (_ & _ & _ & -> & _). apply lookup_delete_eq.
  - apply Remove_absent.
  - intros kv. by apply RemoveOldest_last.
  - by apply RemoveOldest_empty.
Qed.

(** With capacity 0 a sequence of [Add]s evicts nothing. *)
Lemma adds_unbounded (kvs : list (K * V)) σ :
  wf σ → MaxEntries (c σ) = 0 →
  ∃ σ', run (adds kvs) σ = Some σ' ∧ wf σ'
        ∧ world σ' = world σ
        ∧ dom (index σ') = dom (index σ) ∪ list_to_set kvs.*1.
Proof.
  revert σ. induction kvs as [|[k v] kvs IH]; intros σ Hwf Hmx.
  { exists σ. split_and!; try done. set_solver. }
  assert (∃ σ1, Add k v σ = Some σ1 ∧ wf σ1 ∧ MaxEntries (c σ1) = 0
                ∧ world σ1 = world σ ∧ dom (index σ1) = dom (index σ) ∪ {[k]})
    as (σ1 & HAdd & Hwf1 & Hmx1 & Hw1 & Hd1).
  { destruct (index σ !! k) as [e|] eqn:Hk.
    - destruct (Add_present σ k v e Hwf Hk) as (v0 & σ1 & _ & HAdd & Ht & _ & Hwf1).
      destruct Ht as ([Hmx1 _] & _ & Hi & Hw). exists σ1.
      split_and!; [done | done | congruence | done |].
      rewrite Hi. apply elem_of_dom_2 in Hk. set_solver.
    - destruct (Add_absent σ k v Hwf Hk) as (σ1 & Hins & Hwf1 & HAdd).
      rewrite Hmx in HAdd. simpl in HAdd.
      destruct Hins as ([Hmx1 _] & _ & _ & _ & Hi & Hw). exists σ1.
      split_and!; [done | done | congruence | done |].
      rewrite Hi. simpl. rewrite dom_insert_L. set_solver. }
  destruct (IH σ1 Hwf1 Hmx1) as (σ' & Hrun & Hwf' & Hw' & Hd').
  exists σ'. cbn. rewrite HAdd. cbn.
  split_and!; [done | done | congruence |].
  rewrite Hd', Hd1. set_solver.
Qed.

Lemma wf_Len_size σ : wf σ → Len σ = Some (Z.of_nat (size (dom (index σ)))).
Proof.
  intros Hwf. rewrite (Len_order σ Hwf), (wf_dom σ Hwf).
  rewrite size_list_to_set by by apply wf_NoDup_keys.
  unfold order_keys. by rewrite length_fmap.
Qed.

(** C2.  In a well-formed cache: [Add key value] on a key of the index
    stores the value in the entry of the key and moves that entry to
    the front of the recency order, changing nothing else.  On any
    other key it links a new entry at the front and records it in the
    index, giving a state [σ1]; then, when the capacity is positive and
    [σ1] has more entries than that, it runs [RemoveOldest] once, which
    removes the last entry of the recency order and calls the callback
    once, for that entry; when the capacity is positive and not
    exceeded, or is 0, it stops at [σ1].  With capacity 0, after any
    sequence of [Add]s the callback has not run, every key that was
    present or was added is present, and the number of entries is the
    number of these keys. *)
Theorem Add_update_insert_evict σ k v :
  wf σ →
  (∀ e, index σ !! k = Some e →
     ∃ σ', Add k v σ = Some σ'
           ∧ touched (mkEntry k v) σ σ'
           ∧ heap σ' = <[e := mkEntry k v]> (heap σ)
           ∧ wf σ')
  ∧ (index σ !! k = None →
     ∃ σ1, inserted (fresh (dom (heap σ))) (mkEntry k v) σ σ1 ∧ wf σ1
       ∧ (0 < MaxEntries (c σ) < Z.of_nat (length (order σ1)) →
            ∃ kv σ', last (order σ1) = Some kv
                     ∧ Add k v σ = RemoveOldest σ1
                     ∧ RemoveOldest σ1 = Some σ'
                     ∧ removed kv σ1 σ'
                     ∧ order σ' = removelast (order σ1)
                     ∧ wf σ')
       ∧ (0 < MaxEntries (c σ) → Z.of_nat (length (order σ1)) ≤ MaxEntries (c σ) →
            Add k v σ = Some σ1)
       ∧ (MaxEntries (c σ) = 0 → Add k v σ = Some σ1))
  ∧ (MaxEntries (c σ) = 0 →
     ∀ kvs : list (K * V),
       ∃ σ', run (adds kvs) σ = Some σ'
             ∧ world σ' = world σ
             ∧ dom (index σ') = dom (index σ) ∪ list_to_set kvs.*1
             ∧ Len σ' = Some (Z.of_nat (size (dom (index σ) ∪ list_to_set kvs.*1)))).
Proof.
  intros Hwf. split_and!.
  - intros e Hk.
    destruct (Add_present σ k v e Hwf Hk) as (v0 & σ' & _ & HAdd & Ht & Hh & Hwf').
    by exists σ'.
  - intros Hk. destruct (Add_absent σ k v Hwf Hk) as (σ1 & Hins & Hwf1 & HAdd).
    exists σ1. split_and!; [done | done | | |].
    + intros [Hpos Hgt].
      rewrite bool_decide_eq_true_2, bool_decide_eq_true_2 in HAdd by lia.
      destruct (last (order σ1)) as [kv|] eqn:Hlast.
      2: { apply last_None in Hlast. rewrite Hlast in Hgt. simpl in Hgt. lia. }
      destruct (RemoveOldest_last σ1 kv Hwf1 Hlast) as (σ' & HR & Hrm & Ho' & Hwf').
      by exists kv, σ'.
    + intros Hpos Hle. rewrite HAdd.
      rewrite (bool_decide_eq_false_2 (_ > _)) by lia. by rewrite andb_false_r.
    + intros Hz. rewrite HAdd. by rewrite (bool_decide_eq_false_2 (_ ≠ _)) by lia.
  - intros Hmx kvs.
    destruct (adds_unbounded kvs σ Hwf Hmx) as (σ' & Hrun & Hwf' & Hw & Hd).
    exists σ'. split_and!; [done | done | done |].
    by rewrite (wf_Len_size σ' Hwf'), Hd.
Qed.

(** C7.  In a well-formed cache, [Clear] calls the callback, if any,
    once for each entry of the cache and for nothing else, in the order
    [es] of the map iteration, the cache still holding all entries
    meanwhile; [es] has one entry per key and as many entries as [Len]
    counted.  Afterwards the list and the map are nil, [Len] is 0,
    every [Get] misses, and [Add], alone or followed by further calls,
    does what it does on a cache newly made by [New] with the same
    capacity and given the same callback. *)
Theorem Clear_calls_back_and_resets (range : gmap K Element → list (K * Element)) σ :
  wf σ → range (index σ) ≡ₚ map_to_list (index σ) →
  ∃ σ' es,
    Clear range σ = Some σ'
    ∧ es ≡ₚ order σ
    ∧ NoDup (key <$> es)
    ∧ Len σ = Some (Z.of_nat (length es))
    ∧ world σ' = called (OnEvicted (c σ)) (order σ) es (world σ)
    ∧ same_config σ σ'
    ∧ order σ' = [] ∧ index σ' = ∅
    ∧ Len σ' = Some 0
    ∧ (∀ k, Get k σ' = Some (None, false, σ'))
    ∧ (∀ k v, Add k v σ' =
              Add k v {| c := set_OnEvicted (OnEvicted (c σ)) (New (MaxEntries (c σ)));
                         heap := heap σ';
                         world := world σ' |})
    ∧ (∀ k v os, run (CallAdd k v :: os) σ' =
                 run (CallAdd k v :: os)
                     {| c := set_OnEvicted (OnEvicted (c σ)) (New (MaxEntries (c σ)));
                        heap := heap σ';
                        world := world σ' |}).
Proof.
  intros Hwf Hrange.
  destruct (Clear_spec range σ Hwf Hrange)
    as (σ' & es & HC & Hperm & Hw & [Hmx Hf] & Hh & Hl & Hm).
  exists σ', es. split_and!; try done.
  - rewrite Hperm. by apply wf_NoDup_keys.
  - by rewrite (Len_order σ Hwf), Hperm.
  - by apply order_None_ll.
  - by apply index_None_cache.
  - unfold Len. by rewrite Hm.
  - intros k. apply Get_miss. by rewrite (index_None_cache _ Hm).
  - intros k v. unfold Add. rewrite Hm. simpl. by rewrite Hmx, Hf.
  - intros k v os. cbn [run exec]. f_equal.
    unfold Add. rewrite Hm. simpl. by rewrite Hmx, Hf.
Qed.

(** *** Sequences of calls *)

Lemma filter_key_absent es k :
  k ∉ key <$> es → filter (λ x, key x = k) es = [].
Proof.
  induction es as [|x es IH]; [done|]. rewrite fmap_cons.
  intros [Hx Hes]%not_elem_of_cons.
  rewrite filter_cons_False by (intros Hk; by apply Hx). by apply IH.
Qed.

Lemma filter_key_singleton es kv :
  NoDup (key <$> es) → kv ∈ es → filter (λ x, key x = key kv) es = [kv].
Proof.
  induction es as [|x es IH]; intros Hnd Hin; [by apply elem_of_nil in Hin|].
  rewrite fmap_cons in Hnd. apply NoDup_cons in Hnd as [Hx Hnd].
  apply elem_of_cons in Hin as [->|Hin].
  - rewrite filter_cons_True by done. f_equal. by apply filter_key_absent.
  - rewrite filter_cons_False; [by apply IH|].
    intros Hk. apply Hx. rewrite Hk. apply list_elem_of_fmap. eauto.
Qed.

(** C3.  Every sequence of [Add], [Get], [Remove], [RemoveOldest],
    [Len] and [Clear] calls (and assignments to [OnEvicted]) on a cache
    made by [New n] runs to the end, and then: the capacity is still
    [n]; no key occurs twice in the recency order; the keys of the index
    are the keys of the recency order; every key of the index has
    exactly one entry in the recency order, the one of the element the
    index gives for it; [Len] is the number of entries; and this number
    is at most [n] when [n] is positive. *)
Theorem invariants_hold (n : Z) h w (os : list (call K V World)) :
  Forall fair os →
  ∃ σ, run os {| c := New n; heap := h; world := w |} = Some σ
    ∧ wf σ
    ∧ MaxEntries (c σ) = n
    ∧ NoDup (order_keys σ)
    ∧ dom (index σ) = list_to_set (order_keys σ)
    ∧ (∀ k e, index σ !! k = Some e →
         ∃ v, heap σ !! e = Some (mkEntry k v)
              ∧ filter (λ x, key x = k) (order σ) = [mkEntry k v])
    ∧ Len σ = Some (Z.of_nat (length (order σ)))
    ∧ (0 < n → Z.of_nat (length (order σ)) ≤ n).
Proof.
  intros Hfair.
  destruct (New_wf n None h w) as [Hwf0 Hb0].
  destruct (run_wf os _ Hwf0 Hfair) as (σ & Hrun & Hwf & Hmx & Hb).
  exists σ. split_and!; try done.
  - by apply wf_NoDup_keys.
  - by apply wf_dom.
  - intros k e Hk. destruct (wf_index_order _ _ _ Hwf Hk) as (v & Hv & Hin).
    exists v. split; [done|].
    apply (filter_key_singleton _ (mkEntry k v)); [by apply wf_NoDup_keys | done].
  - by apply Len_order.
  - specialize (Hb Hb0). unfold bounded in Hb. simpl in Hmx. rewrite Hmx in Hb. done.
Qed.

Lemma wf_order_nil_index σ : wf σ → order σ = [] → index σ = ∅.
Proof.
  intros Hwf Ho. apply dom_empty_iff_L. rewrite (wf_dom σ Hwf).
  unfold order_keys. by rewrite Ho.
Qed.

(** With a negative capacity, [Add] on an empty cache evicts the entry
    it has just inserted. *)
Lemma Add_negative σ k v :
  wf σ → MaxEntries (c σ) < 0 → order σ = [] →
  ∃ σ', Add k v σ = Some σ' ∧ wf σ' ∧ same_config σ σ'
        ∧ order σ' = [] ∧ index σ' = ∅
        ∧ world σ' = called (OnEvicted (c σ)) [] [mkEntry k v] (world σ).
Proof.
  intros Hwf Hneg Ho. pose proof (wf_order_nil_index σ Hwf Ho) as Hi.
  assert (index σ !! k = None) as Hk by by rewrite Hi, lookup_empty.
  destruct (Add_absent σ k v Hwf Hk) as (σ1 & Hins & Hwf1 & ->).
  destruct Hins as ([Hmx1 Hf1] & _ & _ & Ho1 & Hi1 & Hw1).
  rewrite Ho in Ho1. rewrite Ho1. simpl.
  rewrite bool_decide_eq_true_2, bool_decide_eq_true_2 by lia. simpl.
  destruct (RemoveOldest_last σ1 (mkEntry k v) Hwf1) as (σ' & HR & Hrm & Ho' & Hwf').
  { by rewrite Ho1. }
  destruct Hrm as ([Hmx' Hf'] & _ & _ & Hi' & Hw').
  rewrite Ho1 in Ho'. simpl in Ho'.
  exists σ'. split_and!; [done | done | split; congruence | done | |].
  - rewrite Hi', Hi1, Hi. simpl. by rewrite delete_insert_eq, delete_empty.
  - by rewrite Hw', Ho', Hf1, Hw1.
Qed.

(** With a negative capacity an empty cache stays empty, whatever is
    called. *)
Lemma exec_negative (o : call K V World) σ :
  wf σ → fair o → MaxEntries (c σ) < 0 → order σ = [] →
  ∃ σ', exec o σ = Some σ' ∧ wf σ'
        ∧ MaxEntries (c σ') = MaxEntries (c σ) ∧ order σ' = [].
Proof.
  intros Hwf Hfair Hneg Ho.
  pose proof (wf_order_nil_index σ Hwf Ho) as Hi.
  destruct o as [k v|k|k| | |range|f]; simpl.
  - destruct (Add_negative σ k v Hwf Hneg Ho) as (σ' & ? & ? & [? ?] & ? & _).
    by exists σ'.
  - rewrite (Get_miss σ k) by by rewrite Hi, lookup_empty. by exists σ.
  - rewrite (Remove_absent σ k) by by rewrite Hi, lookup_empty. by exists σ.
  - rewrite (RemoveOldest_empty σ Hwf Ho). by exists σ.
  - rewrite (Len_order σ Hwf). by exists σ.
  - destruct (Clear_spec range σ Hwf (Hfair _))
      as (σ' & es & -> & _ & _ & [Hmx _] & _ & Hl & Hm).
    exists σ'. split_and!; [done | by apply wf_nil | done | by apply order_None_ll].
  - eexists. split_and!; [done | exact Hwf | done | exact Ho].
Qed.

Lemma run_negative (os : list (call K V World)) σ :
  wf σ → Forall fair os → MaxEntries (c σ) < 0 → order σ = [] →
  ∃ σ', run os σ = Some σ' ∧ wf σ'
        ∧ MaxEntries (c σ') = MaxEntries (c σ) ∧ order σ' = [].
Proof.
  intros Hwf Hfair. revert σ Hwf.
  induction Hfair as [|o os Ho Hos IH]; intros σ Hwf Hneg Hnil; [by exists σ|].
  destruct (exec_negative o σ Hwf Ho Hneg Hnil) as (σ1 & Hexec & Hwf1 & Hmx1 & Ho1).
  destruct (IH σ1 Hwf1) as (σ' & Hrun & Hwf' & Hmx' & Ho'); [lia | done |].
  exists σ'. simpl. rewrite Hexec. simpl. split_and!; [done | done | congruence | done].
Qed.

(** C9.  With a negative capacity [n]: [Add] on an empty well-formed
    cache leaves the cache empty and calls the callback, if any, once,
    with the pair just added, the cache being empty again when it runs;
    and so, after any sequence of [Add]s on a cache made by [New n], the
    cache is empty, [Len] is 0, every [Get] misses, and the callback has
    run once for each pair added, in the order of the calls.  A cache
    made by [New n] is in fact empty after any sequence of calls, so
    that every [Add] on it is one on an empty cache. *)
Theorem negative_capacity_keeps_nothing (n : Z) f h w (kvs : list (K * V)) :
  n < 0 →
  (∀ σ k v, wf σ → MaxEntries (c σ) = n → order σ = [] →
     ∃ σ', Add k v σ = Some σ'
           ∧ order σ' = [] ∧ index σ' = ∅
           ∧ world σ' = called (OnEvicted (c σ)) [] [mkEntry k v] (world σ))
  ∧ (∃ σ, run (adds kvs) {| c := set_OnEvicted f (New n); heap := h; world := w |} = Some σ
      ∧ order σ = [] ∧ index σ = ∅
      ∧ Len σ = Some 0
      ∧ (∀ k, Get k σ = Some (None, false, σ))
      ∧ world σ = called f [] (entry_of <$> kvs) w)
  ∧ (∀ os : list (call K V World), Forall fair os →
       ∃ σ, run os {| c := New n; heap := h; world := w |} = Some σ
            ∧ wf σ ∧ MaxEntries (c σ) = n ∧ order σ = [] ∧ index σ = ∅).
Proof.
  intros Hneg. split_and!.
  { intros σ k v Hwf Hmx Ho.
    destruct (Add_negative σ k v Hwf ltac:(lia) Ho) as (σ' & ? & _ & _ & ? & ? & ?).
    by exists σ'. }
  2: { intros os Hfair. destruct (New_wf n None h w) as [Hwf0 _].
       destruct (run_negative os _ Hwf0 Hfair) as (σ & Hrun & Hwf & Hmx & Ho);
         [simpl; lia | done |].
       exists σ. split_and!; [done | done | done | done |].
       by apply wf_order_nil_index. }
  destruct (New_wf n f h w) as [Hwf0 _].
  set (σ0 := {| c := set_OnEvicted f (New n); heap := h; world := w |}) in *.
  assert (∃ σ, run (adds kvs) σ0 = Some σ ∧ wf σ ∧ order σ = []
               ∧ world σ = called f [] (entry_of <$> kvs) w)
    as (σ & Hrun & Hwf & Ho & Hw).
  { assert (MaxEntries (c σ0) = n ∧ OnEvicted (c σ0) = f ∧ order σ0 = []
            ∧ world σ0 = w) as (Hmx & Hf & Ho & Hw) by done.
    clearbody σ0. revert σ0 w Hwf0 Hmx Hf Ho Hw.
    induction kvs as [|[k v] kvs IH]; intros σ0 w Hwf0 Hmx Hf Ho Hw.
    { exists σ0. by rewrite called_nil. }
    destruct (Add_negative σ0 k v Hwf0 ltac:(lia) Ho)
      as (σ1 & HAdd & Hwf1 & [Hmx1 Hf1] & Ho1 & _ & Hw1).
    destruct (IH σ1 (world σ1) Hwf1) as (σ & Hrun & Hwf & Ho' & Hw');
      [congruence | congruence | done | done |].
    exists σ. cbn. rewrite HAdd. cbn. split_and!; [done | done | done |].
    rewrite Hw', Hw1, Hf, Hw. symmetry. apply (called_app _ _ [_]). }
  exists σ. split_and!; [done | done | by apply wf_order_nil_index | | | done].
  - by rewrite (Len_order σ Hwf), Ho.
  - intros k. apply Get_miss. by rewrite (wf_order_nil_index σ Hwf Ho), lookup_empty.
Qed.

(** A cache not made by [New] has a nil list and a nil map. *)
Lemma zero_discarded (n : Z) f :
  ll (zero n f) = None ∧ cache (zero n f) = None.
Proof. done. Qed.

(** So has a cache after [Clear]. *)
Lemma Clear_discards (range : gmap K Element → list (K * Element)) σ σ' :
  Clear range σ = Some σ' → ll (c σ') = None ∧ cache (c σ') = None.
Proof.
  unfold Clear. intros Hc. apply bind_Some in Hc as (σ1 & _ & Hc). by simplify_eq.
Qed.

Lemma removeElement_allocated e σ σ' :
  removeElement e σ = Some σ' → is_Some (cache (c σ)) →
  is_Some (ll (c σ')) ∧ is_Some (cache (c σ')).
Proof.
  unfold removeElement. intros Hr [m Hm].
  apply bind_Some in Hr as (l & Hl & Hr). apply bind_Some in Hr as (kv & Hkv & Hr).
  simplify_eq. rewrite evicted_c. simpl. rewrite Hm. simpl. eauto.
Qed.

(** [Add] leaves a list and a map allocated. *)
Lemma Add_allocated σ k v σ' :
  wf σ → Add k v σ = Some σ' → is_Some (ll (c σ')) ∧ is_Some (cache (c σ')).
Proof.
  intros Hwf. rewrite Add_unfold by done. cbn zeta.
  destruct (index σ !! k) as [e|].
  - intros (kv & _ & ?)%bind_Some. simplify_eq. simpl. eauto.
  - destruct (_ && _); [|intros; simplify_eq; simpl; eauto].
    unfold RemoveOldest. cbn [c cache ll mbind option_bind].
    destruct (Back _); [|intros; simplify_eq; simpl; eauto].
    intros Hr. eapply removeElement_allocated; [exact Hr|]. simpl. eauto.
Qed.

(** C10.  On a cache whose list and map are nil (the zero value, or a
    cache after [Clear]) no method panics: [Get] returns [(nil, false)],
    [Len] returns 0, [Remove], [RemoveOldest] and [Clear] return the
    state unchanged, so without calling the callback, and [Add] does
    what it does on the same cache with an empty list and an empty map,
    which it makes first; it leaves a well-formed cache with list and
    map allocated, holding just the added entry unless the capacity is
    negative. *)
Theorem nil_cache_is_empty_cache σ :
  ll (c σ) = None → cache (c σ) = None →
  (∀ k, Get k σ = Some (None, false, σ))
  ∧ Len σ = Some 0
  ∧ (∀ k, Remove k σ = Some σ)
  ∧ RemoveOldest σ = Some σ
  ∧ (∀ range : gmap K Element → list (K * Element),
       (∀ m, range m ≡ₚ map_to_list m) → Clear range σ = Some σ)
  ∧ (∀ k v, ∃ σ',
       Add k v σ = Some σ'
       ∧ Add k v σ =
           Add k v {| c := {| MaxEntries := MaxEntries (c σ);
                              OnEvicted := OnEvicted (c σ);
                              ll := Some container_list.New;
                              cache := Some ∅ |};
                      heap := heap σ; world := world σ |}
       ∧ wf σ' ∧ is_Some (ll (c σ')) ∧ is_Some (cache (c σ'))
       ∧ (0 ≤ MaxEntries (c σ) → order σ' = [mkEntry k v] ∧ world σ' = world σ)).
Proof.
  intros Hl Hm.
  assert (wf σ) as Hwf by by apply wf_nil.
  assert (index σ = ∅) as Hi by by apply index_None_cache.
  split_and!.
  - intros k. apply Get_miss. by rewrite Hi, lookup_empty.
  - unfold Len. by rewrite Hm.
  - intros k. apply Remove_absent. by rewrite Hi, lookup_empty.
  - unfold RemoveOldest. by rewrite Hm.
  - intros range Hfair.
    assert (range ∅ = []) as Hnil.
    { apply Permutation_nil_r. by rewrite (Hfair ∅), map_to_list_empty. }
    destruct σ as [[mx f ol om] h w]. simpl in *. subst.
    unfold Clear. simpl. rewrite Hnil. by destruct f.
  - intros k v.
    assert (index σ !! k = None) as Hk by by rewrite Hi, lookup_empty.
    destruct (Add_absent σ k v Hwf Hk) as (σ1 & Hins & Hwf1 & HAdd).
    destruct (Add_wf σ k v Hwf) as (σ' & HAdd' & Hwf' & _).
    destruct (Add_allocated σ k v σ' Hwf HAdd') as [Hl' Hm'].
    exists σ'. split_and!; [done | | done | done | done |].
    + unfold Add. by rewrite Hm.
    + intros Hpos. destruct Hins as (_ & _ & _ & Ho1 & _ & Hw1).
      rewrite (order_None_ll _ Hl) in Ho1. rewrite Ho1 in HAdd. simpl in HAdd.
      assert (Add k v σ = Some σ1) as HAdd1.
      { rewrite HAdd. destruct (decide (MaxEntries (c σ) = 0)) as [Hz|Hnz].
        - by rewrite (bool_decide_eq_false_2 (_ ≠ _)) by lia.
        - rewrite (bool_decide_eq_false_2 (_ > _)) by lia. by rewrite andb_false_r. }
      by simplify_eq.
Qed.

(** *** Further properties of the cache *)

Lemma filter_all {A} (P : A → Prop) `{∀ x, Decision (P x)} (xs : list A) :
  (∀ x, x ∈ xs → P x) → filter P xs = xs.
Proof.
  induction xs as [|x xs IH]; intros Hall; [done|].
  rewrite filter_cons_True by (apply Hall; left).
  f_equal. apply IH. intros y Hy. apply Hall. by right.
Qed.

Lemma filter_none {A} (P : A → Prop) `{∀ x, Decision (P x)} (xs : list A) :
  (∀ x, x ∈ xs → ¬ P x) → filter P xs = [].
Proof.
  induction xs as [|x xs IH]; intros Hall; [done|].
  rewrite filter_cons_False by (apply Hall; left).
  apply IH. intros y Hy. apply Hall. by right.
Qed.

Lemma find_index_Some σ k e :
  wf σ → index σ !! k = Some e →
  ∃ v, find k (order σ) = Some (mkEntry k v) ∧ mkEntry k v ∈ order σ.
Proof.
  intros Hwf Hk. destruct (wf_index_order _ _ _ Hwf Hk) as (v & _ & Hin).
  exists v. split; [|done]. unfold find.
  by rewrite (filter_key_singleton _ (mkEntry k v)) by (by apply wf_NoDup_keys || done).
Qed.

Lemma find_index_None σ k : wf σ → index σ !! k = None → find k (order σ) = None.
Proof.
  intros Hwf Hk. unfold find. rewrite filter_key_absent; [done|].
  intros Hin. apply not_elem_of_dom in Hk. apply Hk.
  rewrite (wf_dom σ Hwf). by apply elem_of_list_to_set.
Qed.

Lemma find_Some_elem_of k es kv : find k es = Some kv → kv ∈ es ∧ key kv = k.
Proof.
  unfold find. intros Hh. apply head_Some_elem_of in Hh.
  apply list_elem_of_filter in Hh. tauto.
Qed.

(** [Get] returns what the recency order holds for the key. *)
Lemma Get_lookup_model σ k :
  wf σ → fst <$> Get k σ = Some (lookup_model k (order σ)).
Proof.
  intros Hwf. unfold lookup_model. destruct (index σ !! k) as [e|] eqn:Hk.
  - destruct (find_index_Some σ k e Hwf Hk) as (v & -> & Hin).
    destruct (Get_hit σ k e Hwf Hk) as (v' & σ' & Hin' & -> & _).
    assert (mkEntry k v' = mkEntry k v) as [= ->]; [|done].
    by apply (wf_order_unique σ).
  - by rewrite (find_index_None σ k Hwf Hk), (Get_miss σ k Hk).
Qed.

(** Every call acts on the recency order as [model] says. *)
Lemma exec_model (o : call K V World) σ :
  wf σ → fair o →
  ∃ σ', exec o σ = Some σ' ∧ wf σ'
        ∧ MaxEntries (c σ') = MaxEntries (c σ)
        ∧ order σ' = model (MaxEntries (c σ)) o (order σ).
Proof.
  intros Hwf Hfair. destruct o as [k v|k|k| | |range|f]; cbn [exec model].
  - destruct (index σ !! k) as [e|] eqn:Hk.
    + destruct (find_index_Some σ k e Hwf Hk) as (v0 & -> & _).
      destruct (Add_present σ k v e Hwf Hk) as (_ & σ' & _ & -> & Ht & _ & Hwf').
      exists σ'. destruct Ht as ([? _] & ? & _). done.
    + rewrite (find_index_None σ k Hwf Hk).
      destruct (Add_absent σ k v Hwf Hk) as (σ1 & Hins & Hwf1 & ->).
      destruct Hins as ([Hmx1 _] & _ & _ & Ho1 & _). cbn zeta. rewrite Ho1.
      destruct (_ && _) eqn:Hevict; [|by exists σ1].
      destruct (last (order σ1)) as [kv|] eqn:Hlast.
      2: { apply last_None in Hlast. by rewrite Ho1 in Hlast. }
      destruct (RemoveOldest_last σ1 kv Hwf1 Hlast) as (σ' & -> & Hrm & Ho' & Hwf').
      exists σ'. destruct Hrm as ([? _] & _).
      split_and!; [done | done | congruence | by rewrite Ho', Ho1].
  - destruct (index σ !! k) as [e|] eqn:Hk.
    + destruct (find_index_Some σ k e Hwf Hk) as (v0 & -> & Hin0).
      destruct (Get_hit σ k e Hwf Hk) as (v & σ' & Hin & -> & Ht & _ & Hwf').
      assert (mkEntry k v = mkEntry k v0) as [= ->] by by apply (wf_order_unique σ).
      exists σ'. destruct Ht as ([? _] & ? & _). done.
    + rewrite (find_index_None σ k Hwf Hk), (Get_miss σ k Hk). by exists σ.
  - destruct (index σ !! k) as [e|] eqn:Hk.
    + destruct (Remove_present σ k e Hwf Hk) as (v & σ' & Hin & -> & Hrm & Hwf').
      exists σ'. destruct Hrm as ([? _] & _ & ? & _). done.
    + rewrite (Remove_absent σ k Hk). exists σ. split_and!; try done.
      symmetry. apply filter_all. intros kv Hkv <-.
      apply (wf_order_index σ kv Hwf) in Hkv as [e He]. congruence.
  - destruct (last (order σ)) as [kv|] eqn:Hlast.
    + destruct (RemoveOldest_last σ kv Hwf Hlast) as (σ' & -> & Hrm & Ho' & Hwf').
      exists σ'. destruct Hrm as ([? _] & _). done.
    + apply last_None in Hlast. rewrite (RemoveOldest_empty σ Hwf Hlast).
      exists σ. by rewrite Hlast.
  - rewrite (Len_order σ Hwf). by exists σ.
  - destruct (Clear_spec range σ Hwf (Hfair _))
      as (σ' & es & -> & _ & _ & [Hmx _] & _ & Hl & Hm).
    exists σ'. split_and!; [done | by apply wf_nil | done | by apply order_None_ll].
  - eexists. split_and!; [done | exact Hwf | done | done].
Qed.

Lemma run_model (os : list (call K V World)) σ :
  wf σ → Forall fair os →
  ∃ σ', run os σ = Some σ' ∧ wf σ'
        ∧ MaxEntries (c σ') = MaxEntries (c σ)
        ∧ order σ' = models (MaxEntries (c σ)) os (order σ).
Proof.
  intros Hwf Hfair. revert σ Hwf.
  induction Hfair as [|o os Ho Hos IH]; intros σ Hwf; [by exists σ|].
  destruct (exec_model o σ Hwf Ho) as (σ1 & Hexec & Hwf1 & Hmx1 & Ho1).
  destruct (IH σ1 Hwf1) as (σ' & Hrun & Hwf' & Hmx' & Ho').
  exists σ'. cbn [run models fold_left]. rewrite Hexec. cbn.
  split_and!; [done | done | congruence |].
  rewrite Ho', Hmx1, Ho1. done.
Qed.

(** X9.  A cache behaves as a list of entries: every sequence of calls
    on a cache made by [New n] runs to the end, leaves the recency order
    that [models] computes from the empty list, and then [Get] returns
    for every key what that list holds for it and [Len] its length. *)
Theorem cache_is_list_model (n : Z) h w (os : list (call K V World)) :
  Forall fair os →
  ∃ σ, run os {| c := New n; heap := h; world := w |} = Some σ
    ∧ order σ = models n os []
    ∧ (∀ k, fst <$> Get k σ = Some (lookup_model k (models n os [])))
    ∧ Len σ = Some (Z.of_nat (length (models n os []))).
Proof.
  intros Hfair. destruct (New_wf n None h w) as [Hwf0 _].
  destruct (run_model os _ Hwf0 Hfair) as (σ & Hrun & Hwf & _ & Ho).
  exists σ. change (order _) with (@nil (entry K V)) in Ho at 2. simpl in Ho.
  split_and!; [done | done | |].
  - intros k. rewrite <- Ho. by apply Get_lookup_model.
  - rewrite <- Ho. by apply Len_order.
Qed.

Lemma find_cons_eq k v es : find k (mkEntry k v :: es) = Some (mkEntry k v).
Proof. unfold find. by rewrite filter_cons_True. Qed.

Lemma find_cons_ne k kv es : key kv ≠ k → find k (kv :: es) = find k es.
Proof. intros Hne. unfold find. by rewrite filter_cons_False. Qed.

Lemma find_filter_ne k k' es :
  k' ≠ k → find k' (filter (λ x, key x ≠ k) es) = find k' es.
Proof.
  intros Hne. unfold find. rewrite list_filter_filter. f_equal.
  apply list_filter_iff. intros x. split; [tauto|]. intros Hx. split; [done|congruence].
Qed.

(** Dropping the last entry loses at most the entry of one key. *)
Lemma find_removelast k es :
  NoDup (key <$> es) →
  find k (removelast es) = find k es ∨ find k (removelast es) = None.
Proof.
  intros Hnd. destruct (last es) as [x|] eqn:Hlast.
  2: { apply last_None in Hlast as ->. by left. }
  apply last_Some in Hlast as [es0 ->]. rewrite removelast_last.
  unfold find at 2. rewrite filter_app.
  destruct (decide (key x = k)) as [Hx|Hx].
  - right. unfold find. rewrite filter_key_absent; [done|].
    rewrite fmap_app in Hnd. apply NoDup_app in Hnd as (_ & Hdisj & _).
    intros Hin. apply (Hdisj k Hin). rewrite <- Hx. simpl. left.
  - left. rewrite (filter_cons_False _ x) by done. by rewrite filter_nil, app_nil_r.
Qed.

(** X10.  What [Add] stores can be read back: in a well-formed cache
    whose capacity is not negative, or in which the key is present,
    [Get key] after [Add key value] returns [value] and [true]. *)
Theorem Add_then_Get σ k v :
  wf σ → 0 ≤ MaxEntries (c σ) ∨ is_Some (index σ !! k) →
  ∃ σ', Add k v σ = Some σ' ∧ fst <$> Get k σ' = Some (Some v, true).
Proof.
  intros Hwf Hpre.
  destruct (exec_model (CallAdd k v) σ Hwf I) as (σ' & HAdd & Hwf' & _ & Ho).
  exists σ'. split; [done|]. rewrite (Get_lookup_model σ' k Hwf'), Ho.
  unfold lookup_model. cbn [model].
  destruct (index σ !! k) as [e|] eqn:Hk.
  - destruct (find_index_Some σ k e Hwf Hk) as (v0 & -> & _).
    by rewrite find_cons_eq.
  - rewrite (find_index_None σ k Hwf Hk). cbn zeta.
    destruct Hpre as [Hpos|[? ?]]; [|done].
    destruct (_ && _) eqn:Hevict; [|by rewrite find_cons_eq].
    apply andb_true_iff in Hevict as [Hnz%bool_decide_eq_true Hgt%bool_decide_eq_true].
    destruct (order σ) as [|kv es]; [simpl in Hgt; lia|].
    cbn [removelast]. by rewrite find_cons_eq.
Qed.

(** X11.  [Add] on one key never changes what [Get] returns for
    another key, except that the other key may have been evicted and
    then misses. *)
Theorem Add_keeps_other_values σ k v k' :
  wf σ → k' ≠ k →
  ∃ σ', Add k v σ = Some σ'
        ∧ (fst <$> Get k' σ' = fst <$> Get k' σ
           ∨ fst <$> Get k' σ' = Some (None, false)).
Proof.
  intros Hwf Hne.
  destruct (exec_model (CallAdd k v) σ Hwf I) as (σ' & HAdd & Hwf' & _ & Ho).
  exists σ'. split; [done|].
  rewrite (Get_lookup_model σ' k' Hwf'), (Get_lookup_model σ k' Hwf), Ho.
  unfold lookup_model. cbn [model].
  pose proof (wf_NoDup_keys σ Hwf) as Hnd. unfold order_keys in Hnd.
  destruct (find k (order σ)) as [kv0|] eqn:Hfind.
  - left. by rewrite find_cons_ne, find_filter_ne by (done || by apply not_eq_sym).
  - cbn zeta. destruct (_ && _).
    + assert (NoDup (key <$> mkEntry k v :: order σ)) as Hnd'.
      { rewrite fmap_cons. constructor; [|done]. simpl.
        intros (kv & Hk & Hin)%list_elem_of_fmap.
        unfold find in Hfind. apply head_None in Hfind.
        by apply (filter_nil_not_elem_of _ _ kv Hfind). }
      destruct (find_removelast k' _ Hnd') as [->| ->]; [left|by right].
      by rewrite find_cons_ne by by apply not_eq_sym.
    + left. by rewrite find_cons_ne by by apply not_eq_sym.
Qed.

(** X12.  Reading a key protects it from the next eviction: in a
    well-formed cache of capacity 0 or at least 2, after a [Get] that
    hits [k], an [Add] on another key leaves [k] in the cache with the
    value that [Get] returned. *)
Theorem Get_protects_from_eviction σ k k' v' :
  wf σ → MaxEntries (c σ) = 0 ∨ 2 ≤ MaxEntries (c σ) →
  is_Some (index σ !! k) → k' ≠ k →
  ∃ v σ1 σ2, Get k σ = Some (Some v, true, σ1)
             ∧ Add k' v' σ1 = Some σ2
             ∧ fst <$> Get k σ2 = Some (Some v, true).
Proof.
  intros Hwf Hcap [e Hk] Hne.
  destruct (Get_hit σ k e Hwf Hk) as (v & σ1 & Hin & HGet & Ht & _ & Hwf1).
  destruct Ht as ([Hmx1 _] & Ho1 & _).
  destruct (exec_model (CallAdd k' v') σ1 Hwf1 I) as (σ2 & HAdd & Hwf2 & _ & Ho2).
  exists v, σ1, σ2. split_and!; [done | done |].
  rewrite (Get_lookup_model σ2 k Hwf2), Ho2, Ho1, Hmx1.
  unfold lookup_model. cbn [model].
  set (rest := filter (λ x, key x ≠ key (mkEntry k v)) (order σ)).
  destruct (find k' (mkEntry k v :: rest)).
  - rewrite find_cons_ne by done.
    rewrite (filter_cons_True (λ x, key x ≠ k')) by (simpl; by apply not_eq_sym).
    by rewrite find_cons_eq.
  - cbn zeta. destruct (_ && _) eqn:Hevict.
    + apply andb_true_iff in Hevict as [Hnz%bool_decide_eq_true Hgt%bool_decide_eq_true].
      destruct rest as [|kv rest]; [simpl in Hgt; lia|].
      cbn [removelast]. rewrite find_cons_ne by done. by rewrite find_cons_eq.
    + rewrite find_cons_ne by done. by rewrite find_cons_eq.
Qed.

Lemma filter_ext_in {A} (P Q : A → Prop) `{∀ x, Decision (P x)} `{∀ x, Decision (Q x)}
    (xs : list A) :
  (∀ x, x ∈ xs → P x ↔ Q x) → filter P xs = filter Q xs.
Proof.
  induction xs as [|x xs IH]; intros Hext; [done|].
  rewrite !filter_cons. rewrite IH by (intros y Hy; apply Hext; by right).
  destruct (decide (P x)) as [HP|HP], (decide (Q x)) as [HQ|HQ]; try done.
  - exfalso. apply HQ, Hext; [left|done].
  - exfalso. apply HP, Hext; [left|done].
Qed.

(** No entry departs when every key of [es] still has an entry. *)
Lemma departed_none es es' :
  (∀ x, x ∈ es → key x ∈ key <$> es') → departed es es' = [].
Proof. intros Hall. apply filter_none. intros x Hx Hn. by apply Hn, Hall. Qed.

(** Exactly [x] departs when the entries of the key of [x] are dropped. *)
Lemma departed_one es es1 x :
  NoDup (key <$> es) → x ∈ es → (∀ y, y ∈ es → y ∈ es1) →
  departed es (filter (λ y, key y ≠ key x) es1) = [x].
Proof.
  intros Hnd Hx Hsub. unfold departed.
  rewrite <- (filter_key_singleton es x Hnd Hx).
  apply filter_ext_in. intros y Hy. split.
  - intros Hn. destruct (decide (key y = key x)) as [|Hne]; [done|].
    exfalso. apply Hn. apply list_elem_of_fmap. exists y. split; [done|].
    apply list_elem_of_filter. split; [done|by apply Hsub].
  - intros Hk (z & Hkz & Hz)%list_elem_of_fmap.
    apply list_elem_of_filter in Hz as [Hz _]. congruence.
Qed.

Lemma touched_departed kv σ σ' :
  touched kv σ σ' → (∃ kv', kv' ∈ order σ ∧ key kv' = key kv) →
  departed (order σ) (order σ') = [].
Proof.
  intros (_ & -> & _) (kv' & Hin & Hk). apply departed_none. intros x Hx.
  rewrite fmap_cons. destruct (decide (key x = key kv)) as [->|Hne]; [left|right].
  apply list_elem_of_fmap. exists x. split; [done|].
  by apply list_elem_of_filter.
Qed.

Lemma removed_departed kv σ σ' :
  wf σ → kv ∈ order σ → removed kv σ σ' →
  departed (order σ) (order σ') = [kv]
  ∧ world σ' = called (OnEvicted (c σ)) (order σ') [kv] (world σ).
Proof.
  intros Hwf Hin (_ & _ & Ho & _ & Hw). split; [|done]. rewrite Ho.
  apply departed_one; [by apply wf_NoDup_keys | done | done].
Qed.

(** What [Add] does on a key that is not present when the capacity is
    positive and exceeded by the insertion. *)
Lemma Add_absent_evict σ k v :
  wf σ → index σ !! k = None →
  0 < MaxEntries (c σ) → MaxEntries (c σ) ≤ Z.of_nat (length (order σ)) →
  ∃ kv σ', last (order σ) = Some kv ∧ key kv ≠ k
           ∧ Add k v σ = Some σ' ∧ wf σ' ∧ same_config σ σ'
           ∧ order σ' = mkEntry k v :: removelast (order σ)
           ∧ order σ' = mkEntry k v :: filter (λ x, key x ≠ key kv) (order σ)
           ∧ index σ' !! key kv = None
           ∧ world σ' = called (OnEvicted (c σ)) (order σ') [kv] (world σ).
Proof.
  intros Hwf Hk Hpos Hfull.
  destruct (Add_absent σ k v Hwf Hk) as (σ1 & Hins & Hwf1 & ->).
  destruct Hins as ([Hmx1 Hf1] & _ & _ & Ho1 & Hi1 & Hw1). rewrite Ho1.
  rewrite bool_decide_eq_true_2, bool_decide_eq_true_2 by (simpl; lia). cbn [andb].
  destruct (last (order σ)) as [kv|] eqn:Hlast.
  2: { apply last_None in Hlast. rewrite Hlast in Hfull. simpl in Hfull. lia. }
  assert (last (order σ1) = Some kv) as Hlast1 by by rewrite Ho1, last_cons, Hlast.
  assert (key kv ≠ k) as Hne.
  { intros <-. apply last_Some_elem_of in Hlast.
    apply (wf_order_index σ kv Hwf) in Hlast as [e He]. congruence. }
  destruct (RemoveOldest_last σ1 kv Hwf1 Hlast1) as (σ' & -> & Hrm & Ho' & Hwf').
  destruct Hrm as ([Hmx' Hf'] & _ & Ho'' & Hi' & Hw').
  assert (order σ' = mkEntry k v :: removelast (order σ)) as Hord.
  { rewrite Ho', Ho1. apply last_Some in Hlast as [es ->].
    by rewrite app_comm_cons, !removelast_last. }
  exists kv, σ'. split_and!; try done.
  - split; congruence.
  - rewrite Ho'', Ho1. by rewrite filter_cons_True by (simpl; by apply not_eq_sym).
  - rewrite Hi'. apply lookup_delete_eq.
  - by rewrite Hw', Hf1, Hw1.
Qed.

(** X13.  A full cache stays full and loses its least recently used
    entry: in a well-formed cache of positive capacity holding as many
    entries as its capacity, [Add] on a key that is not present puts the
    new entry at the front, removes the last entry of the recency order
    and calls the callback, if any, once, for that entry; [Len] is
    unchanged. *)
Theorem Add_to_full_cache σ k v :
  wf σ → index σ !! k = None →
  0 < MaxEntries (c σ) → Z.of_nat (length (order σ)) = MaxEntries (c σ) →
  ∃ kv σ', last (order σ) = Some kv
           ∧ Add k v σ = Some σ'
           ∧ order σ' = mkEntry k v :: removelast (order σ)
           ∧ fst <$> Get (key kv) σ' = Some (None, false)
           ∧ world σ' = called (OnEvicted (c σ)) (order σ') [kv] (world σ)
           ∧ Len σ' = Len σ.
Proof.
  intros Hwf Hk Hpos Hfull.
  destruct (Add_absent_evict σ k v Hwf Hk Hpos ltac:(lia))
    as (kv & σ' & Hlast & Hne & HAdd & Hwf' & _ & Ho & _ & Hi & Hw).
  exists kv, σ'. split_and!; try done.
  - by rewrite (Get_miss σ' (key kv) Hi).
  - rewrite (Len_order σ Hwf), (Len_order σ' Hwf'), Ho. cbn [length].
    rewrite length_removelast_pred.
    destruct (order σ); [simpl in Hfull; lia | simpl; do 2 f_equal; lia].
Qed.

(** X14.  [Remove] undoes an [Add] that inserted: in a well-formed
    cache with room for one more entry (capacity 0, or more than the
    number of entries), [Add] on a key that is not present followed by
    [Remove] of that key gives back the recency order and the key
    index, and the callback, if any, is called once, with the pair that
    was added, seeing the old recency order. *)
Theorem Add_then_Remove σ k v :
  wf σ → index σ !! k = None →
  MaxEntries (c σ) = 0 ∨ Z.of_nat (length (order σ)) < MaxEntries (c σ) →
  ∃ σ1 σ2, Add k v σ = Some σ1 ∧ Remove k σ1 = Some σ2
           ∧ order σ2 = order σ ∧ index σ2 = index σ
           ∧ world σ2 = called (OnEvicted (c σ)) (order σ) [mkEntry k v] (world σ).
Proof.
  intros Hwf Hk Hroom.
  destruct (Add_absent σ k v Hwf Hk) as (σ1 & Hins & Hwf1 & HAdd).
  destruct Hins as ([Hmx1 Hf1] & _ & _ & Ho1 & Hi1 & Hw1).
  assert (Add k v σ = Some σ1) as HAdd1.
  { rewrite HAdd, Ho1. cbn [length]. destruct Hroom as [Hz|Hlt].
    - by rewrite (bool_decide_eq_false_2 (_ ≠ _)) by lia.
    - rewrite (bool_decide_eq_false_2 (_ > _)) by lia. by rewrite andb_false_r. }
  assert (index σ1 !! k = Some (fresh (dom (heap σ)))) as Hk1.
  { rewrite Hi1. apply lookup_insert_eq. }
  destruct (Remove_present σ1 k _ Hwf1 Hk1) as (v' & σ2 & Hin & HR & Hrm & Hwf2).
  assert (mkEntry k v' = mkEntry k v) as [= ->].
  { apply (wf_order_unique σ1); [done | done | rewrite Ho1; left | done]. }
  destruct Hrm as (_ & _ & Ho2 & Hi2 & Hw2).
  assert (order σ2 = order σ) as Hord.
  { rewrite Ho2, Ho1. rewrite filter_cons_False by (intros Hn; by apply Hn).
    apply filter_all. intros x Hx Hkx.
    apply (wf_order_index σ x Hwf) in Hx as [e He]. simpl in Hkx. congruence. }
  exists σ1, σ2. split_and!; [done | done | done | |].
  - rewrite Hi2, Hi1. simpl. rewrite delete_insert_eq. by apply delete_id.
  - by rewrite Hw2, Hord, Hf1, Hw1.
Qed.

(** X15.  The callback hears of every entry that leaves the cache,
    once, and of nothing else: for every call on a well-formed cache
    whose capacity is not negative, the callback, if any, is called
    once for each entry of the old recency order whose key has no entry
    in the new one, and for no other.  In particular [Add] on a present
    key replaces the value without a call. *)
Theorem callback_reports_departures (o : call K V World) σ :
  wf σ → fair o → 0 ≤ MaxEntries (c σ) →
  ∃ σ' evs snap,
    exec o σ = Some σ'
    ∧ evs ≡ₚ departed (order σ) (order σ')
    ∧ world σ' = called (OnEvicted (c σ)) snap evs (world σ).
Proof.
  intros Hwf Hfair Hcap.
  assert (departed (order σ) (order σ) = []) as Hsame.
  { apply departed_none. intros x Hx. apply list_elem_of_fmap. eauto. }
  destruct o as [k v|k|k| | |range|f]; cbn [exec].
  - destruct (index σ !! k) as [e|] eqn:Hk.
    + destruct (Add_present σ k v e Hwf Hk) as (v0 & σ' & Hin & -> & Ht & _).
      exists σ', [], []. split; [done|].
      rewrite (touched_departed _ _ _ Ht) by eauto.
      destruct Ht as (_ & _ & _ & ->). by rewrite called_nil.
    + destruct (decide (0 < MaxEntries (c σ)
                        ∧ MaxEntries (c σ) ≤ Z.of_nat (length (order σ)))) as [[Hpos Hfull]|Hroom].
      * destruct (Add_absent_evict σ k v Hwf Hk Hpos Hfull)
          as (kv & σ' & Hlast & Hne & -> & _ & _ & _ & Ho & _ & Hw).
        exists σ', [kv], (order σ'). split; [done|]. split; [|done].
        rewrite Ho.
        assert (mkEntry k v :: filter (λ x, key x ≠ key kv) (order σ) =
                filter (λ x, key x ≠ key kv) (mkEntry k v :: order σ)) as ->.
        { by rewrite filter_cons_True by (simpl; by apply not_eq_sym). }
        rewrite departed_one; [done | by apply wf_NoDup_keys | | ].
        -- by apply last_Some_elem_of.
        -- intros y Hy. by right.
      * destruct (Add_absent σ k v Hwf Hk) as (σ1 & Hins & Hwf1 & ->).
        destruct Hins as (_ & _ & _ & Ho1 & _ & Hw1). rewrite Ho1. cbn [length].
        assert (bool_decide (MaxEntries (c σ) ≠ 0)
                && bool_decide (Z.of_nat (S (length (order σ))) > MaxEntries (c σ)) = false)
          as ->.
        { destruct (decide (MaxEntries (c σ) = 0)) as [Hz|Hnz].
          - by rewrite (bool_decide_eq_false_2 (_ ≠ _)) by lia.
          - rewrite (bool_decide_eq_false_2 (_ > _)) by lia. by rewrite andb_false_r. }
        exists σ1, [], []. split; [done|]. rewrite Hw1, called_nil. split; [|done].
        rewrite departed_none; [done|]. intros x Hx. rewrite Ho1, fmap_cons. right.
        apply list_elem_of_fmap. eauto.
  - destruct (index σ !! k) as [e|] eqn:Hk.
    + destruct (Get_hit σ k e Hwf Hk) as (v & σ' & Hin & -> & Ht & _).
      exists σ', [], []. split; [done|].
      rewrite (touched_departed _ _ _ Ht) by eauto.
      destruct Ht as (_ & _ & _ & ->). by rewrite called_nil.
    + rewrite (Get_miss σ k Hk). exists σ, [], []. by rewrite Hsame, called_nil.
  - destruct (index σ !! k) as [e|] eqn:Hk.
    + destruct (Remove_present σ k e Hwf Hk) as (v & σ' & Hin & -> & Hrm & _).
      destruct (removed_departed _ _ _ Hwf Hin Hrm) as [Hd Hw].
      exists σ', [mkEntry k v], (order σ'). by rewrite Hd.
    + rewrite (Remove_absent σ k Hk). exists σ, [], []. by rewrite Hsame, called_nil.
  - destruct (last (order σ)) as [kv|] eqn:Hlast.
    + destruct (RemoveOldest_last σ kv Hwf Hlast) as (σ' & -> & Hrm & _).
      apply last_Some_elem_of in Hlast.
      destruct (removed_departed _ _ _ Hwf Hlast Hrm) as [Hd Hw].
      exists σ', [kv], (order σ'). by rewrite Hd.
    + apply last_None in Hlast. rewrite (RemoveOldest_empty σ Hwf Hlast).
      exists σ, [], []. by rewrite Hsame, called_nil.
  - rewrite (Len_order σ Hwf). exists σ, [], []. by rewrite Hsame, called_nil.
  - destruct (Clear_spec range σ Hwf (Hfair _))
      as (σ' & es & -> & Hperm & Hw & _ & _ & Hl & _).
    exists σ', es, (order σ). split; [done|]. split; [|done].
    rewrite (order_None_ll _ Hl), Hperm. unfold departed.
    rewrite filter_all; [done|]. intros x _. apply not_elem_of_nil.
  - exists {| c := set_OnEvicted f (c σ); heap := heap σ; world := world σ |}, [], [].
    split; [done|]. split; [|by rewrite called_nil].
    change (order {| c := set_OnEvicted f (c σ); heap := heap σ; world := world σ |})
      with (order σ).
    by rewrite Hsame.
Qed.

Lemma called_blind f snap snap' es w :
  blind f → called f snap es w = called f snap' es w.
Proof.
  intros Hblind. destruct f as [g|]; [|done]. simpl.
  revert w. induction es as [|x es IH]; intros w; [done|].
  simpl. rewrite (Hblind g eq_refl _ _ snap snap'). apply IH.
Qed.

(** X16.  [RemoveOldest] empties a cache from the least recently used
    entry on: called as many times as the well-formed cache has
    entries, it leaves the cache empty, and a callback that does not
    look at the cache has been called once for each entry, the last of
    the recency order first and the front last. *)
Theorem RemoveOldest_drains σ :
  wf σ → blind (OnEvicted (c σ)) →
  ∃ σ', run (replicate (length (order σ)) CallRemoveOldest) σ = Some σ'
        ∧ order σ' = [] ∧ index σ' = ∅
        ∧ world σ' = called (OnEvicted (c σ)) [] (reverse (order σ)) (world σ).
Proof.
  remember (length (order σ)) as n eqn:Hn.
  revert σ Hn. induction n as [|n IH]; intros σ Hn Hwf Hblind.
  { symmetry in Hn. apply length_zero_iff_nil in Hn.
    exists σ. rewrite Hn, called_nil.
    split_and!; [done | done | by apply wf_order_nil_index | done]. }
  destruct (last (order σ)) as [kv|] eqn:Hlast.
  2: { apply last_None in Hlast. by rewrite Hlast in Hn. }
  destruct (RemoveOldest_last σ kv Hwf Hlast) as (σ1 & HR & Hrm & Ho1 & Hwf1).
  destruct Hrm as ([_ Hf1] & _ & _ & _ & Hw1).
  destruct (IH σ1) as (σ' & Hrun & Ho' & Hi' & Hw').
  { rewrite Ho1, length_removelast_pred, <- Hn. done. }
  { done. }
  { by rewrite Hf1. }
  exists σ'. cbn [replicate run exec]. rewrite HR. cbn [mbind option_bind].
  split_and!; [done | done | done |].
  rewrite Hw', Hf1, Hw1, Ho1. apply last_Some in Hlast as [es ->].
  rewrite removelast_last, reverse_snoc.
  rewrite (called_blind _ es [] [kv]) by done.
  symmetry. apply (called_app _ _ [kv]).
Qed.

(** X17.  A cache that was not made by [New] works as well: every
    sequence of calls on a [Cache] whose list and map are nil runs to
    the end without a panic, keeps the invariants, and acts on the
    recency order as on the list model, from the empty list. *)
Theorem invariants_hold_from_zero (n : Z) f h w (os : list (call K V World)) :
  Forall fair os →
  ∃ σ, run os {| c := zero n f; heap := h; world := w |} = Some σ
    ∧ wf σ
    ∧ MaxEntries (c σ) = n
    ∧ NoDup (order_keys σ)
    ∧ dom (index σ) = list_to_set (order_keys σ)
    ∧ order σ = models n os []
    ∧ Len σ = Some (Z.of_nat (length (order σ)))
    ∧ (0 < n → Z.of_nat (length (order σ)) ≤ n).
Proof.
  intros Hfair.
  set (σ0 := {| c := zero n f; heap := h; world := w |}).
  assert (wf σ0) as Hwf0 by done.
  assert (bounded σ0) as Hb0 by (unfold bounded; simpl; lia).
  destruct (run_wf os σ0 Hwf0 Hfair) as (σ & Hrun & Hwf & Hmx & Hb).
  destruct (run_model os σ0 Hwf0 Hfair) as (σ' & Hrun' & _ & _ & Ho).
  rewrite Hrun in Hrun'. injection Hrun' as <-.
  exists σ. split_and!; try done.
  - by apply wf_NoDup_keys.
  - by apply wf_dom.
  - by apply Len_order.
  - specialize (Hb Hb0). unfold bounded in Hb. simpl in Hmx. by rewrite Hmx in Hb.
Qed.

Lemma run_app (os1 os2 : list (call K V World)) σ :
  run (os1 ++ os2) σ = run os1 σ ≫= run os2.
Proof.
  revert σ. induction os1 as [|o os1 IH]; intros σ; [done|].
  cbn [app run]. destruct (exec o σ) as [σ1|]; [|done]. cbn. apply IH.
Qed.

Lemma adds_snoc (kvs : list (K * V)) k v :
  adds (kvs ++ [(k, v)]) = adds kvs ++ [CallAdd k v : call K V World].
Proof. unfold adds. by rewrite fmap_app. Qed.

Lemma take_last_split {A} (n : nat) (xs : list A) :
  (0 < n ≤ length xs)%nat →
  ∃ x, xs !! (n - 1)%nat = Some x ∧ take n xs = take (n - 1) xs ++ [x].
Proof.
  intros Hn. destruct (lookup_lt_is_Some_2 xs (n - 1)%nat) as [x Hx]; [lia|].
  exists x. split; [done|]. rewrite <- (take_S_r _ _ _ Hx). f_equal. lia.
Qed.

(** The recency order and the callback calls after adding [kvs], with
    distinct keys, to an empty cache of capacity [n]. *)
Lemma adds_latest (n : Z) f h w (kvs : list (K * V)) :
  0 ≤ n → NoDup kvs.*1 → blind f →
  ∃ σ, run (adds kvs) {| c := set_OnEvicted f (New n); heap := h; world := w |} = Some σ
    ∧ wf σ ∧ MaxEntries (c σ) = n ∧ OnEvicted (c σ) = f
    ∧ order σ = (if decide (n = 0) then reverse (entry_of <$> kvs)
                 else take (Z.to_nat n) (reverse (entry_of <$> kvs)))
    ∧ world σ = called f []
                  (if decide (n = 0) then []
                   else take (length kvs - Z.to_nat n) (entry_of <$> kvs)) w.
Proof.
  intros Hn. induction kvs as [|[k v] kvs IH] using rev_ind; intros Hnd Hblind.
  { eexists. split; [done|]. destruct (New_wf n f h w) as [Hwf0 _].
    change (entry_of <$> []) with (@nil (entry K V)). cbn [length Nat.sub].
    rewrite reverse_nil, !take_nil.
    destruct (decide (n = 0)); rewrite called_nil; by split_and!. }
  rewrite fmap_app in Hnd. apply NoDup_app in Hnd as (Hnd & Hdisj & _).
  destruct (IH Hnd Hblind) as (σ & Hrun & Hwf & Hmx & Hf & Ho & Hw).
  set (es := entry_of <$> kvs) in *.
  assert (length es = length kvs) as Hlen by apply length_fmap.
  assert (index σ !! k = None) as Hk.
  { destruct (index σ !! k) as [e|] eqn:Hk; [exfalso|done].
    destruct (wf_index_order σ k e Hwf Hk) as (v0 & _ & Hin).
    assert (mkEntry k v0 ∈ es) as Hes.
    { rewrite Ho in Hin. destruct (decide (n = 0)).
      - by apply elem_of_reverse.
      - apply elem_of_take in Hin as (i & Hi & _).
        apply elem_of_reverse. by eapply list_elem_of_lookup_2. }
    apply list_elem_of_fmap in Hes as ([k' v'] & [= <- <-] & Hkv).
    apply (Hdisj k); [|simpl; left].
    apply list_elem_of_fmap. by exists (k, v0). }
  rewrite adds_snoc, run_app, Hrun.
  cbn [mbind option_bind run exec].
  rewrite !length_app. cbn [length]. fold es.
  replace (entry_of <$> kvs ++ [(k, v)]) with (es ++ [mkEntry k v])
    by (by rewrite fmap_app).
  rewrite reverse_snoc.
  destruct (decide (0 < n ∧ n ≤ Z.of_nat (length (order σ)))) as [[Hpos Hfull]|Hroom].
  - destruct (Add_absent_evict σ k v Hwf Hk ltac:(lia) ltac:(lia))
      as (kv & σ' & Hlast & _ & -> & Hwf' & [Hmx' Hf'] & Ho' & _ & _ & Hw').
    exists σ'. cbn [mbind option_bind].
    rewrite decide_False in Ho, Hw |- * by lia. rewrite decide_False by lia.
    assert (Z.to_nat n ≤ length es)%nat as Hle.
    { rewrite Ho, length_take, length_reverse in Hfull. lia. }
    destruct (take_last_split (Z.to_nat n) (reverse es)) as (x & Hx & Htake).
    { rewrite length_reverse. lia. }
    rewrite Ho, Htake in Hlast. rewrite last_snoc in Hlast. injection Hlast as ->.
    split_and!; [done | done | congruence | congruence | |].
    + rewrite Ho', Ho, Htake, removelast_last.
      replace (Z.to_nat n) with (S (Z.to_nat n - 1)) at 2 by lia. done.
    + rewrite Hw', Hf, Hw.
      rewrite (called_blind f _ [] [kv]) by done.
      rewrite <- (called_app f [] _ [kv]). f_equal.
      rewrite reverse_lookup in Hx by (rewrite ?length_reverse; lia).
      replace (length es - S (Z.to_nat n - 1))%nat with (length kvs - Z.to_nat n)%nat
        in Hx by lia.
      rewrite take_app_le by lia.
      replace (length kvs + 1 - Z.to_nat n)%nat with (S (length kvs - Z.to_nat n)) by lia.
      by rewrite (take_S_r _ _ _ Hx).
  - destruct (Add_absent σ k v Hwf Hk) as (σ1 & Hins & Hwf1 & ->).
    destruct Hins as ([Hmx1 Hf1] & _ & _ & Ho1 & _ & Hw1). rewrite Ho1. cbn [length].
    assert (bool_decide (MaxEntries (c σ) ≠ 0)
            && bool_decide (Z.of_nat (S (length (order σ))) > MaxEntries (c σ)) = false)
      as ->.
    { destruct (decide (MaxEntries (c σ) = 0)) as [Hz|Hnz].
      - by rewrite (bool_decide_eq_false_2 (_ ≠ _)) by lia.
      - rewrite (bool_decide_eq_false_2 (_ > _)) by lia. by rewrite andb_false_r. }
    exists σ1. cbn [mbind option_bind].
    split_and!; [done | done | congruence | congruence | |].
    + rewrite Ho1, Ho. destruct (decide (n = 0)) as [Hz|Hnz]; [done|].
      assert (length es < Z.to_nat n)%nat as Hlt.
      { rewrite Ho, length_take, length_reverse in Hroom. lia. }
      rewrite (take_ge (reverse es)) by (rewrite length_reverse; lia).
      rewrite take_ge; [done|]. cbn [length]. rewrite length_reverse. lia.
    + rewrite Hw1, Hw. destruct (decide (n = 0)) as [Hz|Hnz]; [done|].
      assert (length es < Z.to_nat n)%nat as Hlt.
      { rewrite Ho, length_take, length_reverse in Hroom. lia. }
      replace (length kvs - Z.to_nat n)%nat with 0%nat by lia.
      replace (length kvs + 1 - Z.to_nat n)%nat with 0%nat by lia. done.
Qed.

(** X18.  Without reads a cache is first in, first out: after [Add]s of
    distinct keys to an empty cache of capacity [n], the cache holds
    the entries added last, the latest at the front, all of them when
    [n] is 0 and at most [n] when [n] is positive; and a callback that
    does not look at the cache has been called for the others, in the
    order in which they were added. *)
Theorem adds_keep_latest (n : Z) f h w (kvs : list (K * V)) :
  0 ≤ n → NoDup kvs.*1 → blind f →
  ∃ σ, run (adds kvs) {| c := set_OnEvicted f (New n); heap := h; world := w |} = Some σ
    ∧ order σ = (if decide (n = 0) then reverse (entry_of <$> kvs)
                 else take (Z.to_nat n) (reverse (entry_of <$> kvs)))
    ∧ world σ = called f []
                  (if decide (n = 0) then []
                   else take (length kvs - Z.to_nat n) (entry_of <$> kvs)) w.
Proof.
  intros Hn Hnd Hblind.
  destruct (adds_latest n f h w kvs Hn Hnd Hblind) as (σ & ? & _ & _ & _ & ? & ?).
  by exists σ.
Qed.

End cache.

(** *** The example caches *)

Lemma after_wf (n : Z) (os : list (call Z Z (list (Z * Z)))) :
  Forall fair os → wf (examples.after n os).
Proof.
  intros Hfair. destruct (New_wf n (Some examples.log) ∅ []) as [Hwf0 _].
  destruct (run_wf os _ Hwf0 Hfair) as (σ & Hrun & Hwf & _).
  unfold examples.after, examples.fresh_cache. by rewrite Hrun.
Qed.

Ltac solve_fair :=
  repeat (constructor; [by simpl|]); constructor.

Lemma cache21_wf : wf examples.cache21.
Proof. apply after_wf. solve_fair. Qed.

Lemma cache321_wf : wf examples.cache321.
Proof. apply after_wf. solve_fair. Qed.

(** The examples of the specification. *)
Example capacity_enforced :
  let σ := examples.after 2 [CallAdd 1 10; CallAdd 2 20; CallAdd 3 30] in
  order σ = [mkEntry 3 30; mkEntry 2 20] ∧ world σ = [(1, 10)]
  ∧ Len σ = Some 2
  ∧ fst <$> Get 1 σ = Some (None, false)
  ∧ fst <$> Get 2 σ = Some (Some 20, true)
  ∧ fst <$> Get 3 σ = Some (Some 30, true).
Proof. by vm_compute. Qed.

Example recency_on_read :
  let σ := examples.after 2 [CallAdd 1 10; CallAdd 2 20; CallGet 1; CallAdd 3 30] in
  order σ = [mkEntry 3 30; mkEntry 1 10] ∧ world σ = [(2, 20)].
Proof. by vm_compute. Qed.

Example update_in_place :
  let σ := examples.after 0 [CallAdd 1 10; CallAdd 1 11] in
  order σ = [mkEntry 1 11] ∧ world σ = [] ∧ Len σ = Some 1.
Proof. by vm_compute. Qed.

Example clear_calls_back :
  let σ := examples.after 0 [CallAdd 1 10; CallAdd 2 20; CallAdd 3 30;
                              CallClear map_to_list; CallAdd 4 40] in
  order σ = [mkEntry 4 40] ∧ world σ ≡ₚ [(1, 10); (2, 20); (3, 30)].
Proof. vm_compute. split; [done|]. reflexivity. Qed.

Lemma Get_hit_or_miss_witness :
  wf examples.cache21
  ∧ (∀ e, index examples.cache21 !! 1 = Some e →
       ∃ v σ', mkEntry 1 v ∈ order examples.cache21
               ∧ Get 1 examples.cache21 = Some (Some v, true, σ')
               ∧ touched (mkEntry 1 v) examples.cache21 σ'
               ∧ wf σ')
  ∧ (index examples.cache21 !! 1 = None →
       Get 1 examples.cache21 = Some (None, false, examples.cache21)).
Proof.
  split; [exact cache21_wf|].
  exact (Get_hit_or_miss examples.cache21 1 cache21_wf).
Defined.

Lemma Remove_and_RemoveOldest_witness :
  wf examples.cache21
  ∧ (∀ e, index examples.cache21 !! 1 = Some e →
       ∃ v σ', mkEntry 1 v ∈ order examples.cache21
               ∧ Remove 1 examples.cache21 = Some σ'
               ∧ removed (mkEntry 1 v) examples.cache21 σ'
               ∧ Get 1 σ' = Some (None, false, σ')
               ∧ wf σ')
  ∧ (index examples.cache21 !! 1 = None →
       Remove 1 examples.cache21 = Some examples.cache21)
  ∧ (∀ kv, last (order examples.cache21) = Some kv →
       ∃ σ', RemoveOldest examples.cache21 = Some σ'
             ∧ removed kv examples.cache21 σ'
             ∧ order σ' = removelast (order examples.cache21)
             ∧ wf σ')
  ∧ (order examples.cache21 = [] →
       RemoveOldest examples.cache21 = Some examples.cache21).
Proof.
  split; [exact cache21_wf|].
  exact (Remove_and_RemoveOldest examples.cache21 1 cache21_wf).
Defined.

Lemma Add_update_insert_evict_witness :
  wf examples.cache21
  ∧ (∀ e, index examples.cache21 !! 3 = Some e →
       ∃ σ', Add 3 30 examples.cache21 = Some σ'
             ∧ touched (mkEntry 3 30) examples.cache21 σ'
             ∧ heap σ' = <[e := mkEntry 3 30]> (heap examples.cache21)
             ∧ wf σ')
  ∧ (index examples.cache21 !! 3 = None →
     ∃ σ1, inserted (fresh (dom (heap examples.cache21))) (mkEntry 3 30)
                    examples.cache21 σ1
       ∧ wf σ1
       ∧ (0 < MaxEntries (c examples.cache21) < Z.of_nat (length (order σ1)) →
            ∃ kv σ', last (order σ1) = Some kv
                     ∧ Add 3 30 examples.cache21 = RemoveOldest σ1
                     ∧ RemoveOldest σ1 = Some σ'
                     ∧ removed kv σ1 σ'
                     ∧ order σ' = removelast (order σ1)
                     ∧ wf σ')
       ∧ (0 < MaxEntries (c examples.cache21) →
          Z.of_nat (length (order σ1)) ≤ MaxEntries (c examples.cache21) →
            Add 3 30 examples.cache21 = Some σ1)
       ∧ (MaxEntries (c examples.cache21) = 0 →
            Add 3 30 examples.cache21 = Some σ1))
  ∧ (MaxEntries (c examples.cache21) = 0 →
     ∀ kvs : list (Z * Z),
       ∃ σ', run (adds kvs) examples.cache21 = Some σ'
             ∧ world σ' = world examples.cache21
             ∧ dom (index σ') = dom (index examples.cache21) ∪ list_to_set kvs.*1
             ∧ Len σ' =
                 Some (Z.of_nat (size (dom (index examples.cache21)
                                        ∪ list_to_set kvs.*1)))).
Proof.
  split; [exact cache21_wf|].
  exact (Add_update_insert_evict examples.cache21 3 30 cache21_wf).
Defined.

Lemma Clear_calls_back_and_resets_witness :
  wf examples.cache321
  ∧ map_to_list (index examples.cache321) ≡ₚ map_to_list (index examples.cache321)
  ∧ ∃ σ' es,
      Clear map_to_list examples.cache321 = Some σ'
      ∧ es ≡ₚ order examples.cache321
      ∧ NoDup (key <$> es)
      ∧ Len examples.cache321 = Some (Z.of_nat (length es))
      ∧ world σ' = called (OnEvicted (c examples.cache321)) (order examples.cache321)
                          es (world examples.cache321)
      ∧ same_config examples.cache321 σ'
      ∧ order σ' = [] ∧ index σ' = ∅
      ∧ Len σ' = Some 0
      ∧ (∀ k, Get k σ' = Some (None, false, σ'))
      ∧ (∀ k v, Add k v σ' =
                Add k v {| c := set_OnEvicted (OnEvicted (c examples.cache321))
                                  (New (MaxEntries (c examples.cache321)));
                           heap := heap σ';
                           world := world σ' |})
      ∧ (∀ k v os, run (CallAdd k v :: os) σ' =
                   run (CallAdd k v :: os)
                       {| c := set_OnEvicted (OnEvicted (c examples.cache321))
                                 (New (MaxEntries (c examples.cache321)));
                          heap := heap σ';
                          world := world σ' |}).
Proof.
  split; [exact cache321_wf|]. split; [reflexivity|].
  exact (Clear_calls_back_and_resets map_to_list examples.cache321 cache321_wf
           (reflexivity _)).
Defined.

Lemma invariants_hold_witness :
  Forall fair examples.session
  ∧ ∃ σ, run examples.session {| c := New 2; heap := ∅; world := [] |} = Some σ
      ∧ wf σ
      ∧ MaxEntries (c σ) = 2
      ∧ NoDup (order_keys σ)
      ∧ dom (index σ) = list_to_set (order_keys σ)
      ∧ (∀ k e, index σ !! k = Some e →
           ∃ v, heap σ !! e = Some (mkEntry k v)
                ∧ filter (λ x, key x = k) (order σ) = [mkEntry k v])
      ∧ Len σ = Some (Z.of_nat (length (order σ)))
      ∧ (0 < 2 → Z.of_nat (length (order σ)) ≤ 2).
Proof.
  assert (Forall fair examples.session) as Hfair by (unfold examples.session; solve_fair).
  split; [exact Hfair|].
  exact (invariants_hold 2 ∅ [] examples.session Hfair).
Defined.

Lemma negative_capacity_keeps_nothing_witness :
  -1 < 0
  ∧ (∀ (σ : state Z Z (list (Z * Z))) k v,
       wf σ → MaxEntries (c σ) = -1 → order σ = [] →
       ∃ σ', Add k v σ = Some σ'
             ∧ order σ' = [] ∧ index σ' = ∅
             ∧ world σ' = called (OnEvicted (c σ)) [] [mkEntry k v] (world σ))
  ∧ (∃ σ, run (adds [(1, 10); (2, 20)])
             {| c := set_OnEvicted (Some examples.log) (New (-1));
                heap := ∅; world := [] |} = Some σ
      ∧ order σ = [] ∧ index σ = ∅
      ∧ Len σ = Some 0
      ∧ (∀ k, Get k σ = Some (None, false, σ))
      ∧ world σ = called (Some examples.log) [] (entry_of <$> [(1, 10); (2, 20)]) [])
  ∧ (∀ os : list (call Z Z (list (Z * Z))), Forall fair os →
       ∃ σ, run os {| c := New (-1); heap := ∅; world := [] |} = Some σ
            ∧ wf σ ∧ MaxEntries (c σ) = -1 ∧ order σ = [] ∧ index σ = ∅).
Proof.
  assert (-1 < 0) as Hneg by lia.
  split; [exact Hneg|].
  exact (negative_capacity_keeps_nothing (-1) (Some examples.log) ∅ []
           [(1, 10); (2, 20)] Hneg).
Defined.

Lemma nil_cache_is_empty_cache_witness :
  ll (c examples.cleared) = None ∧ cache (c examples.cleared) = None
  ∧ (∀ k, Get k examples.cleared = Some (None, false, examples.cleared))
  ∧ Len examples.cleared = Some 0
  ∧ (∀ k, Remove k examples.cleared = Some examples.cleared)
  ∧ RemoveOldest examples.cleared = Some examples.cleared
  ∧ (∀ range : gmap Z Element → list (Z * Element),
       (∀ m, range m ≡ₚ map_to_list m) →
       Clear range examples.cleared = Some examples.cleared)
  ∧ (∀ k v, ∃ σ',
       Add k v examples.cleared = Some σ'
       ∧ Add k v examples.cleared =
           Add k v {| c := {| MaxEntries := MaxEntries (c examples.cleared);
                              OnEvicted := OnEvicted (c examples.cleared);
                              ll := Some container_list.New;
                              cache := Some ∅ |};
                      heap := heap examples.cleared;
                      world := world examples.cleared |}
       ∧ wf σ' ∧ is_Some (ll (c σ')) ∧ is_Some (cache (c σ'))
       ∧ (0 ≤ MaxEntries (c examples.cleared) →
            order σ' = [mkEntry k v] ∧ world σ' = world examples.cleared)).
Proof.
  assert (ll (c examples.cleared) = None) as Hl by (vm_compute; reflexivity).
  assert (cache (c examples.cleared) = None) as Hm by (vm_compute; reflexivity).
  split; [exact Hl|]. split; [exact Hm|].
  exact (nil_cache_is_empty_cache examples.cleared Hl Hm).
Defined.

Lemma Add_then_Get_witness :
  wf examples.cache21
  ∧ (0 ≤ MaxEntries (c examples.cache21) ∨ is_Some (index examples.cache21 !! 3))
  ∧ ∃ σ', Add 3 30 examples.cache21 = Some σ'
          ∧ fst <$> Get 3 σ' = Some (Some 30, true).
Proof.
  assert (0 ≤ MaxEntries (c examples.cache21) ∨ is_Some (index examples.cache21 !! 3))
    as Hpre by (left; vm_compute; discriminate).
  split; [exact cache21_wf|]. split; [exact Hpre|].
  exact (Add_then_Get examples.cache21 3 30 cache21_wf Hpre).
Defined.

Lemma Add_keeps_other_values_witness :
  wf examples.cache21 ∧ 2 ≠ 3
  ∧ ∃ σ', Add 3 30 examples.cache21 = Some σ'
          ∧ (fst <$> Get 2 σ' = fst <$> Get 2 examples.cache21
             ∨ fst <$> Get 2 σ' = Some (None, false)).
Proof.
  assert (2 ≠ 3) as Hne by lia.
  split; [exact cache21_wf|]. split; [exact Hne|].
  exact (Add_keeps_other_values examples.cache21 3 30 2 cache21_wf Hne).
Defined.

Lemma Get_protects_from_eviction_witness :
  wf examples.cache21
  ∧ (MaxEntries (c examples.cache21) = 0 ∨ 2 ≤ MaxEntries (c examples.cache21))
  ∧ is_Some (index examples.cache21 !! 1) ∧ 3 ≠ 1
  ∧ ∃ v σ1 σ2, Get 1 examples.cache21 = Some (Some v, true, σ1)
               ∧ Add 3 30 σ1 = Some σ2
               ∧ fst <$> Get 1 σ2 = Some (Some v, true).
Proof.
  assert (MaxEntries (c examples.cache21) = 0 ∨ 2 ≤ MaxEntries (c examples.cache21))
    as Hcap by (right; vm_compute; discriminate).
  assert (is_Some (index examples.cache21 !! 1)) as Hk by (vm_compute; eauto).
  assert (3 ≠ 1) as Hne by lia.
  split; [exact cache21_wf|]. split; [exact Hcap|]. split; [exact Hk|].
  split; [exact Hne|].
  exact (Get_protects_from_eviction examples.cache21 1 3 30 cache21_wf Hcap Hk Hne).
Defined.

Lemma cache1_wf : wf examples.cache1.
Proof. apply after_wf. solve_fair. Qed.

Example models_recency_on_read :
  models (World := list (Z * Z)) 2
         [CallAdd 1 10; CallAdd 2 20; CallGet 1; CallAdd 3 30] []
  = [mkEntry 3 30; mkEntry 1 10]
  ∧ order (examples.after 2 [CallAdd 1 10; CallAdd 2 20; CallGet 1; CallAdd 3 30])
    = [mkEntry 3 30; mkEntry 1 10].
Proof. by vm_compute. Qed.

Lemma cache_is_list_model_witness :
  Forall fair examples.session
  ∧ ∃ σ, run examples.session {| c := New 2; heap := ∅; world := [] |} = Some σ
      ∧ order σ = models 2 examples.session []
      ∧ (∀ k, fst <$> Get k σ = Some (lookup_model k (models 2 examples.session [])))
      ∧ Len σ = Some (Z.of_nat (length (models 2 examples.session []))).
Proof.
  assert (Forall fair examples.session) as Hfair by (unfold examples.session; solve_fair).
  split; [exact Hfair|].
  exact (cache_is_list_model 2 ∅ [] examples.session Hfair).
Defined.

Lemma Add_to_full_cache_witness :
  wf examples.cache21 ∧ index examples.cache21 !! 3 = None
  ∧ 0 < MaxEntries (c examples.cache21)
  ∧ Z.of_nat (length (order examples.cache21)) = MaxEntries (c examples.cache21)
  ∧ ∃ kv σ', last (order examples.cache21) = Some kv
             ∧ Add 3 30 examples.cache21 = Some σ'
             ∧ order σ' = mkEntry 3 30 :: removelast (order examples.cache21)
             ∧ fst <$> Get (key kv) σ' = Some (None, false)
             ∧ world σ' = called (OnEvicted (c examples.cache21)) (order σ') [kv]
                                 (world examples.cache21)
             ∧ Len σ' = Len examples.cache21.
Proof.
  assert (index examples.cache21 !! 3 = None) as Hk by (vm_compute; reflexivity).
  assert (0 < MaxEntries (c examples.cache21)) as Hpos by (vm_compute; reflexivity).
  assert (Z.of_nat (length (order examples.cache21)) = MaxEntries (c examples.cache21))
    as Hfull by (vm_compute; reflexivity).
  split; [exact cache21_wf|]. split; [exact Hk|]. split; [exact Hpos|].
  split; [exact Hfull|].
  exact (Add_to_full_cache examples.cache21 3 30 cache21_wf Hk Hpos Hfull).
Defined.

Lemma Add_then_Remove_witness :
  wf examples.cache1 ∧ index examples.cache1 !! 5 = None
  ∧ (MaxEntries (c examples.cache1) = 0
     ∨ Z.of_nat (length (order examples.cache1)) < MaxEntries (c examples.cache1))
  ∧ ∃ σ1 σ2, Add 5 50 examples.cache1 = Some σ1 ∧ Remove 5 σ1 = Some σ2
             ∧ order σ2 = order examples.cache1 ∧ index σ2 = index examples.cache1
             ∧ world σ2 = called (OnEvicted (c examples.cache1)) (order examples.cache1)
                                 [mkEntry 5 50] (world examples.cache1).
Proof.
  assert (index examples.cache1 !! 5 = None) as Hk by (vm_compute; reflexivity).
  assert (MaxEntries (c examples.cache1) = 0
          ∨ Z.of_nat (length (order examples.cache1)) < MaxEntries (c examples.cache1))
    as Hroom by (right; vm_compute; reflexivity).
  split; [exact cache1_wf|]. split; [exact Hk|]. split; [exact Hroom|].
  exact (Add_then_Remove examples.cache1 5 50 cache1_wf Hk Hroom).
Defined.

Lemma callback_reports_departures_witness :
  wf examples.cache21 ∧ fair (CallAdd 3 30 : call Z Z (list (Z * Z)))
  ∧ 0 ≤ MaxEntries (c examples.cache21)
  ∧ ∃ σ' evs snap,
      exec (CallAdd 3 30) examples.cache21 = Some σ'
      ∧ evs ≡ₚ departed (order examples.cache21) (order σ')
      ∧ world σ' = called (OnEvicted (c examples.cache21)) snap evs
                          (world examples.cache21).
Proof.
  assert (fair (CallAdd 3 30 : call Z Z (list (Z * Z)))) as Hfair by exact I.
  assert (0 ≤ MaxEntries (c examples.cache21)) as Hcap by (vm_compute; discriminate).
  split; [exact cache21_wf|]. split; [exact Hfair|]. split; [exact Hcap|].
  exact (callback_reports_departures (CallAdd 3 30) examples.cache21
           cache21_wf Hfair Hcap).
Defined.

Lemma RemoveOldest_drains_witness :
  wf examples.cache21 ∧ blind (OnEvicted (c examples.cache21))
  ∧ ∃ σ', run (replicate (length (order examples.cache21)) CallRemoveOldest)
              examples.cache21 = Some σ'
          ∧ order σ' = [] ∧ index σ' = ∅
          ∧ world σ' = called (OnEvicted (c examples.cache21)) []
                              (reverse (order examples.cache21))
                              (world examples.cache21).
Proof.
  assert (blind (OnEvicted (c examples.cache21))) as Hblind.
  { intros g Hg. vm_compute in Hg. injection Hg as <-. reflexivity. }
  split; [exact cache21_wf|]. split; [exact Hblind|].
  exact (RemoveOldest_drains examples.cache21 cache21_wf Hblind).
Defined.

Lemma invariants_hold_from_zero_witness :
  Forall fair examples.session
  ∧ ∃ σ, run examples.session
             {| c := zero 2 (Some examples.log); heap := ∅; world := [] |} = Some σ
      ∧ wf σ
      ∧ MaxEntries (c σ) = 2
      ∧ NoDup (order_keys σ)
      ∧ dom (index σ) = list_to_set (order_keys σ)
      ∧ order σ = models 2 examples.session []
      ∧ Len σ = Some (Z.of_nat (length (order σ)))
      ∧ (0 < 2 → Z.of_nat (length (order σ)) ≤ 2).
Proof.
  assert (Forall fair examples.session) as Hfair by (unfold examples.session; solve_fair).
  split; [exact Hfair|].
  exact (invariants_hold_from_zero 2 (Some examples.log) ∅ [] examples.session Hfair).
Defined.

Example adds_first_in_first_out :
  let σ := examples.after 2 [CallAdd 1 10; CallAdd 2 20; CallAdd 3 30; CallAdd 4 40] in
  order σ = [mkEntry 4 40; mkEntry 3 30] ∧ world σ = [(2, 20); (1, 10)].
Proof. by vm_compute. Qed.

Lemma adds_keep_latest_witness :
  0 ≤ 2 ∧ NoDup [(1, 10); (2, 20); (3, 30)].*1 ∧ blind (Some examples.log)
  ∧ ∃ σ, run (adds [(1, 10); (2, 20); (3, 30)])
             {| c := set_OnEvicted (Some examples.log) (New 2);
                heap := ∅; world := [] |} = Some σ
      ∧ order σ = (if decide (2 = 0) then reverse (entry_of <$> [(1, 10); (2, 20); (3, 30)])
                   else take (Z.to_nat 2)
                             (reverse (entry_of <$> [(1, 10); (2, 20); (3, 30)])))
      ∧ world σ = called (Some examples.log) []
                    (if decide (2 = 0) then []
                     else take (length [(1, 10); (2, 20); (3, 30)] - Z.to_nat 2)
                               (entry_of <$> [(1, 10); (2, 20); (3, 30)])) [].
Proof.
  assert (0 ≤ 2) as Hn by lia.
  assert (NoDup [(1, 10); (2, 20); (3, 30)].*1) as Hnd.
  { apply (bool_decide_unpack _). by vm_compute. }
  assert (blind (Some examples.log)) as Hblind.
  { intros g Hg. injection Hg as <-. reflexivity. }
  split; [exact Hn|]. split; [exact Hnd|]. split; [exact Hblind|].
  exact (adds_keep_latest 2 (Some examples.log) ∅ [] [(1, 10); (2, 20); (3, 30)]
           Hn Hnd Hblind).
Defined.

End lru_spec.
